(** * SurrealDB connection pool (src/database/pool.ts)

    A shallow embedding of the class [SurrealDBPool] and of the part of
    utils/errors.ts it uses.

    The class is asynchronous: every method is a sequence of atomic
    segments separated by [await]s, and segments of different calls may
    interleave at those points.  Each asynchronous method is therefore
    modelled by
    - a type of suspension points (one constructor per [await], carrying
      the live local variables, plus a settled state), and
    - one function per segment, written in a state monad over the pool
      and its environment ([Date.now], object allocation, the trace of
      [close] calls).
    A call run on its own is the iteration of its step function over the
    events it awaits; interleaved calls are a list of such tasks stepped
    one at a time. *)

From stdpp Require Import base option list strings pretty.
From Stdlib Require Import ZArith Lia.

#[local] Open Scope Z_scope.

(** ** Errors (utils/errors.ts) and promise results *)

(** [DatabaseError(message, originalError?)]; every other thrown value
    (backend failures, errors of user callbacks) is opaque. *)
#[warnings="-register-all"]
Inductive Err : Type :=
| DatabaseError (message : string) (originalError : option Err)
| Foreign (tag : nat).

(** The state of a settled promise. *)
Inductive Settled (A : Type) : Type :=
| Resolved (a : A)
| Rejected (e : Err).
Arguments Resolved {A} a.
Arguments Rejected {A} e.

(** ** Data model *)

(** A [Surreal] client is an object; only its identity matters to the
    pool ([c.client === client]).  The n-th object built by
    [new Surreal()] is [n]. *)
Definition Surreal : Type := nat.

Record PoolConnection : Type := mkConn {
  client : Surreal;
  inUse : bool;
  lastUsed : Z
}.

Record SurrealDBPool : Type := mkPool {
  pool : list PoolConnection;
  maxSize : Z;
  timeout : Z;
  initialized : bool
}.

(** The predicates of the two [find] calls: [(conn) => !conn.inUse] and
    [(c) => c.client === client]. *)
Definition is_free (conn : PoolConnection) : Prop := inUse conn = false.
Definition is_client (c : Surreal) (conn : PoolConnection) : Prop := client conn = c.

#[global] Instance is_free_dec conn : Decision (is_free conn).
Proof. unfold is_free. apply _. Defined.
#[global] Instance is_client_dec c conn : Decision (is_client c conn).
Proof. unfold is_client. apply _. Defined.

(** The pool object with its array replaced by [l]. *)
Definition with_pool (l : list PoolConnection) (p : SurrealDBPool) : SurrealDBPool :=
  {| pool := l; maxSize := maxSize p; timeout := timeout p;
     initialized := initialized p |}.

(** [new SurrealDBPool(maxSize, timeout)] *)
Definition constructor (maxSize timeout : Z) : SurrealDBPool :=
  {| pool := []; maxSize := maxSize; timeout := timeout; initialized := false |}.

(** The pool object together with what its methods observe of the
    environment: the wall clock ([clock k] is the value of the k-th call
    of [Date.now()], [reads] counts the calls made so far), the number of
    [Surreal] objects constructed so far, and the clients whose [close()]
    has been called (latest first). *)
Record World : Type := mkWorld {
  this : SurrealDBPool;
  clock : nat → Z;
  reads : nat;
  objects : nat;
  closeCalls : list Surreal
}.

Definition new_world (maxSize timeout : Z) (clock : nat → Z) : World :=
  {| this := constructor maxSize timeout; clock := clock; reads := 0%nat;
     objects := 0%nat; closeCalls := [] |}.

(** ** The state monad of a segment *)

Definition M (A : Type) : Type := World → A * World.

Definition ret {A} (a : A) : M A := λ w, (a, w).

Definition bind {A B} (m : M A) (k : A → M B) : M B :=
  λ w, let (a, w') := m w in k a w'.

Notation "'let*' x ':=' m 'in' k" := (bind m (λ x, k))
  (at level 10, x name, m at level 200, k at level 200).

Definition get_this : M SurrealDBPool := λ w, (this w, w).

Definition modify_this (f : SurrealDBPool → SurrealDBPool) : M unit :=
  λ w, (tt, {| this := f (this w); clock := clock w; reads := reads w;
               objects := objects w; closeCalls := closeCalls w |}).

Definition set_pool (f : list PoolConnection → list PoolConnection) : M unit :=
  modify_this (λ p, with_pool (f (pool p)) p).

Definition set_initialized (b : bool) : M unit :=
  modify_this (λ p, {| pool := pool p; maxSize := maxSize p;
                       timeout := timeout p; initialized := b |}).

(** [Date.now()] *)
Definition Date_now : M Z :=
  λ w, (clock w (reads w),
        {| this := this w; clock := clock w; reads := S (reads w);
           objects := objects w; closeCalls := closeCalls w |}).

(** [new Surreal()] *)
Definition new_Surreal : M Surreal :=
  λ w, (objects w,
        {| this := this w; clock := clock w; reads := reads w;
           objects := S (objects w); closeCalls := closeCalls w |}).

(** The call [client.close()], up to its [await]. *)
Definition call_close (c : Surreal) : M unit :=
  λ w, (tt,
        {| this := this w; clock := clock w; reads := reads w;
           objects := objects w; closeCalls := c :: closeCalls w |}).

(** ** Events awaited by the methods *)

(** The outcome of the three backend calls of [createConnection];
    [None] is a fulfilled promise, [Some e] one rejected with [e]. *)
Record Handshake : Type := mkHandshake {
  connect : option Err;
  signin : option Err;
  use_ : option Err
}.

Definition handshake_ok : Handshake :=
  {| connect := None; signin := None; use_ := None |}.

Inductive Event : Type :=
| Handshook (h : Handshake)     (* the awaited [createConnection()] settled *)
| Closed (r : option Err)       (* the awaited [client.close()] settled *)
| Tick.                         (* a timer fired, or the turn of a
                                   continuation waiting on a settled promise *)

(** ** initialize *)

Inductive Initialize : Type :=
| InitCreating (i : Z) (client : Surreal)   (* at [await this.createConnection()] *)
| InitSettled (r : Settled unit).

(** [createConnection], given the client it constructed and the outcome
    of [connect], [signin] and [use]. *)
Definition createConnection (client : Surreal) (h : Handshake) : Settled Surreal :=
  match connect h with
  | Some e => Rejected e
  | None =>
    match signin h with
    | Some e => Rejected e
    | None =>
      match use_ h with
      | Some e => Rejected e
      | None => Resolved client
      end
    end
  end.

Definition initialize_failed (error : Err) : Err :=
  DatabaseError "Failed to initialize connection pool" (Some error).

(** The head of the [for] loop with counter [i]: the test, then either the
    call of [createConnection] up to its first [await], or the code after
    the loop. *)
Definition initialize_loop (i : Z) : M Initialize :=
  let* p := get_this in
  if i <? maxSize p then
    let* client := new_Surreal in
    ret (InitCreating i client)
  else
    let* _ := set_initialized true in
    ret (InitSettled (Resolved tt)).

(** The call [initialize()], up to its first [await]. *)
Definition initialize : M Initialize :=
  let* p := get_this in
  if initialized p then ret (InitSettled (Resolved tt))
  else initialize_loop 0.

(** The continuation of [await this.createConnection()] in iteration [i]. *)
Definition initialize_resume (i : Z) (client : Surreal) (h : Handshake) : M Initialize :=
  match createConnection client h with
  | Resolved client =>
    let* now := Date_now in
    let* _ := set_pool (λ l, l ++ [ {| client := client; inUse := false; lastUsed := now |} ]) in
    initialize_loop (i + 1)
  | Rejected error =>
    ret (InitSettled (Rejected (initialize_failed error)))
  end.

Definition init_step (s : Initialize) (ev : Event) : option (M Initialize) :=
  match s, ev with
  | InitCreating i client, Handshook h => Some (initialize_resume i client h)
  | _, _ => None
  end.

(** ** acquire *)

Inductive Acquire : Type :=
| AcqInitializing (s : Initialize)   (* at [await this.initialize()] *)
| AcqSleeping (start : Z)            (* at [await new Promise(... setTimeout(resolve, 10))] *)
| AcqSettled (r : Settled Surreal).

Definition acquire_timed_out (timeout : Z) : Err :=
  DatabaseError
    ("Failed to acquire connection within " +:+ pretty timeout +:+ "ms timeout")
    None.

(** The head of the [while] loop: the test, then the body up to its
    [return] or its [await]; after the loop, the [throw]. *)
Definition acquire_loop (start : Z) : M Acquire :=
  let* now := Date_now in
  let* p := get_this in
  if now - start <? timeout p then
    match list_find is_free (pool p) with
    | Some (i, available) =>
      let* now := Date_now in
      let* _ := set_pool
        <[ i := {| client := client available; inUse := true; lastUsed := now |} ]> in
      ret (AcqSettled (Resolved (client available)))
    | None => ret (AcqSleeping start)
    end
  else ret (AcqSettled (Rejected (acquire_timed_out (timeout p)))).

(** From [const start = Date.now()] on. *)
Definition acquire_body : M Acquire :=
  let* start := Date_now in
  acquire_loop start.

(** The call [acquire()], up to its first [await] (or to its end). *)
Definition acquire : M Acquire :=
  let* p := get_this in
  if initialized p then acquire_body
  else
    let* s := initialize in
    ret (AcqInitializing s).

(** The continuation of [await this.initialize()]: a rejection is not
    caught by [acquire]. *)
Definition acquire_resume (r : Settled unit) : M Acquire :=
  match r with
  | Resolved _ => acquire_body
  | Rejected e => ret (AcqSettled (Rejected e))
  end.

Definition lift_step {S S'} (wrap : S → S') (m : option (M S)) : option (M S') :=
  match m with
  | Some m => Some (let* s := m in ret (wrap s))
  | None => None
  end.

Definition acq_step (s : Acquire) (ev : Event) : option (M Acquire) :=
  match s with
  | AcqInitializing (InitSettled r) =>
    match ev with Tick => Some (acquire_resume r) | _ => None end
  | AcqInitializing s => lift_step AcqInitializing (init_step s ev)
  | AcqSleeping start =>
    match ev with Tick => Some (acquire_loop start) | _ => None end
  | AcqSettled _ => None
  end.

(** ** release *)

Definition release (c : Surreal) : M unit :=
  let* p := get_this in
  match list_find (is_client c) (pool p) with
  | Some (i, conn) =>
    let* now := Date_now in
    set_pool <[ i := {| client := client conn; inUse := false; lastUsed := now |} ]>
  | None => ret tt
  end.

(** ** withConnection *)

Section WithConnection.
(** The result type of the callback [fn]. *)
Context {T : Type}.

Inductive WithConnection : Type :=
| WithAcquiring (s : Acquire)       (* at [await this.acquire()] *)
| WithRunning (client : Surreal)    (* at [await fn(client)] *)
| WithSettled (r : Settled T).

(** What a [withConnection] call awaits: the events of its [acquire],
    then the promise returned by [fn]. *)
Inductive WithEvent : Type :=
| PoolEvent (ev : Event)
| FnSettled (r : Settled T).

(** The call [withConnection(fn)], up to its first [await]. *)
Definition withConnection : M WithConnection :=
  let* s := acquire in
  ret (WithAcquiring s).

(** The continuation of [await this.acquire()]: outside the [try], so a
    rejection leaves [withConnection] at once; otherwise [fn(client)]
    is called. *)
Definition withConnection_acquired (r : Settled Surreal) : M WithConnection :=
  match r with
  | Resolved client => ret (WithRunning client)
  | Rejected e => ret (WithSettled (Rejected e))
  end.

(** The continuation of [await fn(client)]: the [finally] block, then the
    [return] or the pending exception. *)
Definition withConnection_finally (client : Surreal) (r : Settled T) : M WithConnection :=
  let* _ := release client in
  ret (WithSettled r).

Definition with_step (s : WithConnection) (ev : WithEvent) : option (M WithConnection) :=
  match s with
  | WithAcquiring (AcqSettled r) =>
    match ev with
    | PoolEvent Tick => Some (withConnection_acquired r)
    | _ => None
    end
  | WithAcquiring s =>
    match ev with
    | PoolEvent ev => lift_step WithAcquiring (acq_step s ev)
    | _ => None
    end
  | WithRunning client =>
    match ev with
    | FnSettled r => Some (withConnection_finally client r)
    | _ => None
    end
  | WithSettled _ => None
  end.
End WithConnection.
Arguments WithConnection : clear implicits.
Arguments WithEvent : clear implicits.

(** ** getStats *)

Module Stats.
Record t : Type := mk { total : Z; inUse : Z; available : Z }.
End Stats.

Definition getStats : M Stats.t :=
  let* p := get_this in
  let inUse := Z.of_nat (length (filter (λ c, inUse c = true) (pool p))) in
  ret {| Stats.total := Z.of_nat (length (pool p));
         Stats.inUse := inUse;
         Stats.available := Z.of_nat (length (pool p)) - inUse |}.

(** ** closeAll *)

Inductive CloseAll : Type :=
| CloseClosing (i : nat)            (* at [await conn.client.close()], [conn] being [this.pool[i]] *)
| CloseSettled (r : Settled unit).

Definition closeAll_failed (error : Err) : Err :=
  DatabaseError "Failed to close connection pool" (Some error).

(** The [for ... of] loop with the array iterator at index [i]: either the
    next element and the call of its [close()], or the code after the
    loop. *)
Definition closeAll_loop (i : nat) : M CloseAll :=
  let* p := get_this in
  match pool p !! i with
  | Some conn =>
    let* _ := call_close (client conn) in
    ret (CloseClosing i)
  | None =>
    let* _ := set_pool (λ _, []) in
    let* _ := set_initialized false in
    ret (CloseSettled (Resolved tt))
  end.

(** The call [closeAll()], up to its first [await]. *)
Definition closeAll : M CloseAll := closeAll_loop 0.

(** The continuation of [await conn.client.close()]. *)
Definition closeAll_resume (i : nat) (r : option Err) : M CloseAll :=
  match r with
  | None => closeAll_loop (S i)
  | Some error => ret (CloseSettled (Rejected (closeAll_failed error)))
  end.

Definition close_step (s : CloseAll) (ev : Event) : option (M CloseAll) :=
  match s, ev with
  | CloseClosing i, Closed r => Some (closeAll_resume i r)
  | _, _ => None
  end.

(** ** A call run on its own *)

(** [run step s evs w] resumes the call in state [s] once for each event
    of [evs], in order; [None] when an event is not what the call awaits. *)
Fixpoint run {S E} (step : S → E → option (M S)) (s : S) (evs : list E) (w : World)
  : option (S * World) :=
  match evs with
  | [] => Some (s, w)
  | ev :: evs =>
    match step s ev with
    | Some m => let (s', w') := m w in run step s' evs w'
    | None => None
    end
  end.

(** A call from its beginning. *)
Definition call {S E} (start : M S) (step : S → E → option (M S)) (evs : list E) (w : World)
  : option (S * World) :=
  let (s, w') := start w in run step s evs w'.

(** ** Interleaved calls *)

Section System.
Context {T : Type}.

Inductive Task : Type :=
| TInitialize (s : Initialize)
| TAcquire (s : Acquire)
| TWithConnection (s : WithConnection T)
| TCloseAll (s : CloseAll).

(** The pool and the calls made so far; a call is named by its position
    in [tasks]. *)
Record System : Type := mkSystem {
  world : World;
  tasks : list Task
}.

(** One atomic segment: the synchronous part of a new call, or the
    continuation of a suspended one. *)
Inductive Action : Type :=
| Call_initialize
| Call_acquire
| Call_release (c : Surreal)
| Call_withConnection
| Call_getStats
| Call_closeAll
| Resume (tid : nat) (ev : WithEvent T).

Definition task_step (t : Task) (ev : WithEvent T) : option (M Task) :=
  match t, ev with
  | TInitialize s, PoolEvent ev => lift_step TInitialize (init_step s ev)
  | TAcquire s, PoolEvent ev => lift_step TAcquire (acq_step s ev)
  | TWithConnection s, ev => lift_step TWithConnection (with_step s ev)
  | TCloseAll s, PoolEvent ev => lift_step TCloseAll (close_step s ev)
  | _, _ => None
  end.

Definition spawn (m : M Task) (σ : System) : System :=
  let (t, w) := m (world σ) in
  {| world := w; tasks := tasks σ ++ [t] |}.

Definition sys_step (a : Action) (σ : System) : option System :=
  match a with
  | Call_initialize => Some (spawn (let* s := initialize in ret (TInitialize s)) σ)
  | Call_acquire => Some (spawn (let* s := acquire in ret (TAcquire s)) σ)
  | Call_withConnection =>
    Some (spawn (let* s := withConnection in ret (TWithConnection s)) σ)
  | Call_closeAll => Some (spawn (let* s := closeAll in ret (TCloseAll s)) σ)
  | Call_release c =>
    Some {| world := snd (release c (world σ)); tasks := tasks σ |}
  | Call_getStats =>
    Some {| world := snd (getStats (world σ)); tasks := tasks σ |}
  | Resume tid ev =>
    match tasks σ !! tid with
    | Some t =>
      match task_step t ev with
      | Some m =>
        let (t', w) := m (world σ) in
        Some {| world := w; tasks := <[ tid := t' ]> (tasks σ) |}
      | None => None
      end
    | None => None
    end
  end.

Fixpoint sys_run (acts : list Action) (σ : System) : option System :=
  match acts with
  | [] => Some σ
  | a :: acts =>
    match sys_step a σ with
    | Some σ' => sys_run acts σ'
    | None => None
    end
  end.
End System.
Arguments Task : clear implicits.
Arguments System : clear implicits.
Arguments Action : clear implicits.

Definition new_system (T : Type) (maxSize timeout : Z) (clock : nat → Z) : System T :=
  {| world := new_world maxSize timeout clock; tasks := [] |}.

(** * Properties *)

(** ** Auxiliary definitions used in the statements *)

(** The number of entries that are checked out. *)
Fixpoint count_inUse (l : list PoolConnection) : nat :=
  match l with
  | [] => 0%nat
  | conn :: l => ((if inUse conn then 1 else 0) + count_inUse l)%nat
  end.

(** [i] is the first index of [l] whose entry satisfies [P]. *)
Definition first_at (P : PoolConnection → Prop) (l : list PoolConnection)
    (i : nat) (conn : PoolConnection) : Prop :=
  l !! i = Some conn ∧ P conn ∧
  ∀ j conn', l !! j = Some conn' → (j < i)%nat → ¬ P conn'.

(** The clock never runs backwards. *)
Definition monotone (clock : nat → Z) : Prop := ∀ n, clock n ≤ clock (S n).

(** The entries pushed by [k] successive iterations of the loop of
    [initialize], the first of which awaits [client], when [next] objects
    exist and the clock has been read [r] times. *)
Fixpoint created (clock : nat → Z) (k : nat) (client : Surreal) (next r : nat)
  : list PoolConnection :=
  match k with
  | O => []
  | S k =>
    {| client := client; inUse := false; lastUsed := clock r |}
      :: created clock k next (S next) (S r)
  end.

(** [k] successful handshakes from iteration [i]: the world reached. *)
Definition after_created (k : nat) (c : Surreal) (w : World) (done : bool) : World :=
  {| this := {| pool := pool (this w) ++ created (clock w) k c (objects w) (reads w);
                maxSize := maxSize (this w); timeout := timeout (this w);
                initialized := if done then true else initialized (this w) |};
     clock := clock w; reads := (reads w + k)%nat;
     objects := if done then (objects w + (k - 1))%nat else (objects w + k)%nat;
     closeCalls := closeCalls w |}.

(** The world after the [push] of iteration [i]. *)
Definition pushed (c : Surreal) (w : World) : World :=
  {| this := with_pool (pool (this w) ++
                [ {| client := c; inUse := false; lastUsed := clock w (reads w) |} ])
                (this w);
     clock := clock w; reads := S (reads w); objects := objects w;
     closeCalls := closeCalls w |}.

(** The client awaited after [k] successful iterations. *)
Definition awaited (k : nat) (c : Surreal) (w : World) : Surreal :=
  match k with O => c | S k => (objects w + k)%nat end.

(** The world after one more reading of the clock. *)
Definition ticked (w : World) : World :=
  {| this := this w; clock := clock w; reads := S (reads w);
     objects := objects w; closeCalls := closeCalls w |}.


Definition with_closeCalls (cc : list Surreal) (w : World) : World :=
  {| this := this w; clock := clock w; reads := reads w; objects := objects w;
     closeCalls := cc |}.

(** The world after the code that follows the loop of [closeAll]. *)
Definition torn_down (w : World) : World :=
  {| this := {| pool := []; maxSize := maxSize (this w);
                timeout := timeout (this w); initialized := false |};
     clock := clock w; reads := reads w; objects := objects w;
     closeCalls := closeCalls w |}.

(** ** Definitions for the exclusive use of a connection *)

Section Exclusive.
Context {T : Type}.

(** The client a call is waiting for in [createConnection], not yet in
    the array. *)
Definition pending_init (s : Initialize) : list Surreal :=
  match s with InitCreating _ c => [c] | InitSettled _ => [] end.

Definition pending_acq (s : Acquire) : list Surreal :=
  match s with AcqInitializing s => pending_init s | _ => [] end.

Definition pending (t : Task T) : list Surreal :=
  match t with
  | TInitialize s => pending_init s
  | TAcquire s => pending_acq s
  | TWithConnection (WithAcquiring s) => pending_acq s
  | _ => []
  end.

(** The client an [acquire] has just resolved with. *)
Definition granted_acq (s : Acquire) : option Surreal :=
  match s with AcqSettled (Resolved c) => Some c | _ => None end.

Definition granted (t : Task T) : option Surreal :=
  match t with
  | TAcquire s => granted_acq s
  | TWithConnection (WithAcquiring s) => granted_acq s
  | _ => None
  end.

(** The client handed out by the segment [a], which led to [σ']. *)
Definition handed_out (a : Action T) (σ' : System T) : option Surreal :=
  match a with
  | Call_acquire | Call_withConnection => last (tasks σ') ≫= granted
  | Resume tid _ => tasks σ' !! tid ≫= granted
  | _ => None
  end.

(** The client for which the continuation of [t] on [ev] calls [release]. *)
Definition released_task (t : Task T) (ev : WithEvent T) : option Surreal :=
  match t, ev with
  | TWithConnection (WithRunning c), FnSettled _ => Some c
  | _, _ => None
  end.

(** The client for which the segment [a], run in [σ], calls [release]. *)
Definition released_by (a : Action T) (σ : System T) : option Surreal :=
  match a with
  | Call_release c => Some c
  | Resume tid ev => tasks σ !! tid ≫= (λ t, released_task t ev)
  | _ => None
  end.

(** The clients handed out and not released since. *)
Definition without (released : option Surreal) (held : list Surreal) : list Surreal :=
  match released with
  | Some c => filter (λ c', c' ≠ c) held
  | None => held
  end.

Definition with_granted (handed : option Surreal) (held : list Surreal) : list Surreal :=
  match handed with
  | Some c => c :: held
  | None => held
  end.

Definition held_after (a : Action T) (σ σ' : System T) (held : list Surreal)
  : list Surreal :=
  with_granted (handed_out a σ') (without (released_by a σ) held).

Fixpoint sys_run_held (acts : list (Action T)) (σ : System T) (held : list Surreal)
  : option (System T * list Surreal) :=
  match acts with
  | [] => Some (σ, held)
  | a :: acts =>
    match sys_step a σ with
    | Some σ' => sys_run_held acts σ' (held_after a σ σ' held)
    | None => None
    end
  end.

(** What the interleaved calls maintain: the clients in the array and
    those still being connected are pairwise distinct objects, and a held
    client is not being connected and is marked [inUse] wherever it is in
    the array. *)
Definition InvL (l : list PoolConnection) (o : nat) (P H : list Surreal) : Prop :=
  NoDup ((client <$> l) ++ P)
  ∧ (∀ c, c ∈ (client <$> l) ++ P ++ H → (c < o)%nat)
  ∧ (∀ c, c ∈ H →
       (c ∉ P) ∧ (∀ conn, conn ∈ l → client conn = c → inUse conn = true)).

Definition Inv (w : World) (P H : list Surreal) : Prop :=
  InvL (pool (this w)) (objects w) P H.

Definition sys_Inv (σ : System T) (H : list Surreal) : Prop :=
  Inv (world σ) (tasks σ ≫= pending) H.

End Exclusive.

(** ** Inputs at which the theorems are evaluated *)

(** Two [acquire()] calls made back to back on a new pool, the two
    handshakes completing afterwards. *)
Definition two_first_acquires : list (Action unit) :=
  [ Call_acquire; Call_acquire;
    Resume 0 (PoolEvent (Handshook handshake_ok));
    Resume 1 (PoolEvent (Handshook handshake_ok));
    Resume 0 (PoolEvent Tick);
    Resume 1 (PoolEvent Tick) ].

(** A handshake whose [signin] is rejected. *)
Definition signin_refused : Handshake :=
  {| connect := None; signin := Some (Foreign 0); use_ := None |}.

(** Calls made strictly one after the other: an [initialize()] whose
    second handshake fails, then three [acquire()], the first of which
    initializes the pool. *)
Definition acquires_after_failure : list (Action unit) :=
  [ Call_initialize;
    Resume 0 (PoolEvent (Handshook handshake_ok));
    Resume 0 (PoolEvent (Handshook signin_refused));
    Call_acquire;
    Resume 1 (PoolEvent (Handshook handshake_ok));
    Resume 1 (PoolEvent (Handshook handshake_ok));
    Resume 1 (PoolEvent Tick);
    Call_acquire;
    Call_acquire ].

(** Two [initialize()] calls made back to back on a new pool. *)
Definition overlapping_initialize : list (Action unit) :=
  [ Call_initialize; Call_initialize;
    Resume 0 (PoolEvent (Handshook handshake_ok));
    Resume 1 (PoolEvent (Handshook handshake_ok)) ].

(** An [initialize()] whose second handshake fails, then a second
    [initialize()] that succeeds. *)
Definition retried_initialize : list (Action unit) :=
  [ Call_initialize;
    Resume 0 (PoolEvent (Handshook handshake_ok));
    Resume 0 (PoolEvent (Handshook signin_refused));
    Call_initialize;
    Resume 1 (PoolEvent (Handshook handshake_ok));
    Resume 1 (PoolEvent (Handshook handshake_ok)) ].

(** An initialized pool of one free connection, configured with a zero
    timeout. *)
Definition zero_timeout_world : World :=
  {| this := {| pool := [ {| client := 0%nat; inUse := false; lastUsed := 0 |} ];
                maxSize := 1; timeout := 0; initialized := true |};
     clock := λ _, 0; reads := 0%nat; objects := 1%nat; closeCalls := [] |}.

(** An initialized pool of two connections. *)
Definition two_entries_world : World :=
  {| this := {| pool := [ {| client := 0%nat; inUse := false; lastUsed := 0 |};
                          {| client := 1%nat; inUse := false; lastUsed := 0 |} ];
                maxSize := 2; timeout := 5000; initialized := true |};
     clock := λ _, 0; reads := 0%nat; objects := 2%nat; closeCalls := [] |}.

(** An initialized pool of two connections, the first one checked out. *)
Definition sample_world : World :=
  {| this := {| pool := [ {| client := 0%nat; inUse := true; lastUsed := 5 |};
                          {| client := 1%nat; inUse := false; lastUsed := 7 |} ];
                maxSize := 2; timeout := 1000; initialized := true |};
     clock := Z.of_nat; reads := 10%nat; objects := 2%nat; closeCalls := [] |}.

(** An initialized pool whose only connection is checked out, with a
    timeout of two milliseconds and a clock that advances by one at each
    reading. *)
Definition busy_world : World :=
  {| this := {| pool := [ {| client := 0%nat; inUse := true; lastUsed := 0 |} ];
                maxSize := 1; timeout := 2; initialized := true |};
     clock := Z.of_nat; reads := 0%nat; objects := 1%nat; closeCalls := [] |}.

(** An initialized pool of one free connection, configured with a zero
    timeout, whose clock steps back between its first two readings:
    [Date.now()] gives 5, then 3, then 4. *)
Definition backward_clock_world : World :=
  {| this := {| pool := [ {| client := 0%nat; inUse := false; lastUsed := 0 |} ];
                maxSize := 1; timeout := 0; initialized := true |};
     clock := λ n, match n with O => 5 | S O => 3 | _ => 4 end;
     reads := 0%nat; objects := 1%nat; closeCalls := [] |}.

(** ** Definitions for further properties of the pool *)

(** The rejections a suspended [acquire] carries are errors of the pool. *)
Definition acq_errors_ok (timeout : Z) (s : Acquire) : Prop :=
  match s with
  | AcqInitializing (InitSettled (Rejected e)) | AcqSettled (Rejected e) =>
    e = acquire_timed_out timeout ∨ ∃ cause, e = initialize_failed cause
  | _ => True
  end.

(** What a [withConnection] call run alone on an initialized pool keeps
    true, [F] and [C] being the flags and the clients it found: while the
    call holds a client the flag of that client's entry is the only one
    changed. *)
Definition with_inv {T} (F : list bool) (C : list Surreal) (w : World)
    (s : WithConnection T) : Prop :=
  client <$> pool (this w) = C ∧ initialized (this w) = true ∧
  match s with
  | WithAcquiring (AcqInitializing _) => False
  | WithAcquiring (AcqSettled (Resolved c)) | WithRunning c =>
    ∃ i, C !! i = Some c ∧ F !! i = Some false
         ∧ inUse <$> pool (this w) = <[ i := true ]> F
  | _ => inUse <$> pool (this w) = F
  end.

(** * SurrealDB client singleton (src/database/client.ts) *)

(** The methods of a [Surreal] object that the module calls. *)
Inductive Method : Type := Connect | Signin | Use | Close | Query.

(** The module variable [db], the number of [Surreal] objects constructed
    so far, and the calls made on them (latest first). *)
Record ClientModule : Type := mkClient {
  db : option Surreal;
  built : nat;
  called : list (Surreal * Method)
}.

Definition new_module : ClientModule :=
  {| db := None; built := 0%nat; called := [] |}.

(** The [TypeError] of a method call on [null]; like every value thrown by
    other code than the repository's it is opaque. *)
Definition null_dereference : Err := Foreign 0.

Definition initDatabase_failed (error : Err) : Err :=
  DatabaseError "Failed to initialize database connection" (Some error).

Definition not_initialized : Err :=
  DatabaseError "Database not initialized. Call initDatabase() first." None.

Definition closeDatabase_failed (error : Err) : Err :=
  DatabaseError "Failed to close database connection" (Some error).

(** The suspension points of [initDatabase]: at [await db.connect(...)],
    [await db.signin(...)] and [await db.use(...)].  The promise resolves
    with the value of [db] at the [return], which is [null] if the
    variable has been reset meanwhile. *)
Inductive InitDatabase : Type :=
| DbConnecting
| DbSigningIn
| DbSelecting
| DbInitSettled (r : Settled (option Surreal)).

(** A call [db.m(...)] inside the [try] of [initDatabase], up to its
    [await]: on the object [db] refers to at that moment. *)
Definition call_on_db (m : Method) (next : InitDatabase) (s : ClientModule)
  : InitDatabase * ClientModule :=
  match db s with
  | Some c =>
    (next, {| db := db s; built := built s; called := (c, m) :: called s |})
  | None => (DbInitSettled (Rejected (initDatabase_failed null_dereference)), s)
  end.

(** The call [initDatabase()], up to its first [await]. *)
Definition initDatabase (s : ClientModule) : InitDatabase * ClientModule :=
  match db s with
  | Some c => (DbInitSettled (Resolved (Some c)), s)
  | None =>
    call_on_db Connect DbConnecting
      {| db := Some (built s); built := S (built s); called := called s |}
  end.

(** The continuation of an [await] of [initDatabase]; [r] is the outcome
    of the awaited promise ([None]: fulfilled). *)
Definition initDatabase_resume (k : InitDatabase) (r : option Err) (s : ClientModule)
  : option (InitDatabase * ClientModule) :=
  match k, r with
  | DbInitSettled _, _ => None
  | _, Some error => Some (DbInitSettled (Rejected (initDatabase_failed error)), s)
  | DbConnecting, None => Some (call_on_db Signin DbSigningIn s)
  | DbSigningIn, None => Some (call_on_db Use DbSelecting s)
  | DbSelecting, None => Some (DbInitSettled (Resolved (db s)), s)
  end.

(** [getDatabase()]: its value, or what it throws. *)
Definition getDatabase (s : ClientModule) : Settled Surreal :=
  match db s with
  | Some c => Resolved c
  | None => Rejected not_initialized
  end.

Inductive CloseDatabase : Type :=
| DbClosing                          (* at [await db.close()] *)
| DbCloseSettled (r : Settled unit).

(** The call [closeDatabase()], up to its [await]. *)
Definition closeDatabase (s : ClientModule) : CloseDatabase * ClientModule :=
  match db s with
  | Some c =>
    (DbClosing, {| db := db s; built := built s; called := (c, Close) :: called s |})
  | None => (DbCloseSettled (Resolved tt), s)
  end.

Definition closeDatabase_resume (k : CloseDatabase) (r : option Err) (s : ClientModule)
  : option (CloseDatabase * ClientModule) :=
  match k, r with
  | DbCloseSettled _, _ => None
  | DbClosing, None =>
    Some (DbCloseSettled (Resolved tt),
          {| db := None; built := built s; called := called s |})
  | DbClosing, Some error =>
    Some (DbCloseSettled (Rejected (closeDatabase_failed error)), s)
  end.

Inductive PingDatabase : Type :=
| DbPinging                          (* at [await db.query('SELECT 1;')] *)
| DbPingSettled (r : Settled bool).

(** The call [pingDatabase()], up to its [await]; whatever is thrown in
    its [try] is caught. *)
Definition pingDatabase (s : ClientModule) : PingDatabase * ClientModule :=
  match getDatabase s with
  | Resolved c =>
    (DbPinging, {| db := db s; built := built s; called := (c, Query) :: called s |})
  | Rejected _ => (DbPingSettled (Resolved false), s)
  end.

Definition pingDatabase_resume (k : PingDatabase) (r : option Err) (s : ClientModule)
  : option (PingDatabase * ClientModule) :=
  match k, r with
  | DbPingSettled _, _ => None
  | DbPinging, None => Some (DbPingSettled (Resolved true), s)
  | DbPinging, Some _ => Some (DbPingSettled (Resolved false), s)
  end.

(** A call of the module run on its own, over the outcomes it awaits. *)
Fixpoint run_db {K} (resume : K → option Err → ClientModule → option (K * ClientModule))
    (k : K) (rs : list (option Err)) (s : ClientModule) : option (K * ClientModule) :=
  match rs with
  | [] => Some (k, s)
  | r :: rs =>
    match resume k r s with
    | Some (k', s') => run_db resume k' rs s'
    | None => None
    end
  end.

Definition call_db {K} (start : ClientModule → K * ClientModule)
    (resume : K → option Err → ClientModule → option (K * ClientModule))
    (rs : list (option Err)) (s : ClientModule) : option (K * ClientModule) :=
  let (k, s') := start s in run_db resume k rs s'.

(** Interleaved calls of the module. *)
Inductive DbTask : Type :=
| TInitDatabase (k : InitDatabase)
| TCloseDatabase (k : CloseDatabase)
| TPingDatabase (k : PingDatabase).

Record DbSystem : Type := mkDbSystem {
  module : ClientModule;
  db_tasks : list DbTask;
  got : list (Settled Surreal)     (* what the calls of [getDatabase] gave, latest first *)
}.

Inductive DbAction : Type :=
| Call_initDatabase
| Call_getDatabase
| Call_closeDatabase
| Call_pingDatabase
| Resume_db (tid : nat) (r : option Err).

Definition db_task_resume (t : DbTask) (r : option Err) (s : ClientModule)
  : option (DbTask * ClientModule) :=
  match t with
  | TInitDatabase k =>
    match initDatabase_resume k r s with
    | Some (k', s') => Some (TInitDatabase k', s')
    | None => None
    end
  | TCloseDatabase k =>
    match closeDatabase_resume k r s with
    | Some (k', s') => Some (TCloseDatabase k', s')
    | None => None
    end
  | TPingDatabase k =>
    match pingDatabase_resume k r s with
    | Some (k', s') => Some (TPingDatabase k', s')
    | None => None
    end
  end.

Definition db_step (a : DbAction) (σ : DbSystem) : option DbSystem :=
  match a with
  | Call_initDatabase =>
    let (k, s) := initDatabase (module σ) in
    Some {| module := s; db_tasks := db_tasks σ ++ [TInitDatabase k]; got := got σ |}
  | Call_closeDatabase =>
    let (k, s) := closeDatabase (module σ) in
    Some {| module := s; db_tasks := db_tasks σ ++ [TCloseDatabase k]; got := got σ |}
  | Call_pingDatabase =>
    let (k, s) := pingDatabase (module σ) in
    Some {| module := s; db_tasks := db_tasks σ ++ [TPingDatabase k]; got := got σ |}
  | Call_getDatabase =>
    Some {| module := module σ; db_tasks := db_tasks σ;
            got := getDatabase (module σ) :: got σ |}
  | Resume_db tid r =>
    match db_tasks σ !! tid with
    | Some t =>
      match db_task_resume t r (module σ) with
      | Some (t', s) =>
        Some {| module := s; db_tasks := <[ tid := t' ]> (db_tasks σ); got := got σ |}
      | None => None
      end
    | None => None
    end
  end.

Fixpoint db_run (acts : list DbAction) (σ : DbSystem) : option DbSystem :=
  match acts with
  | [] => Some σ
  | a :: acts =>
    match db_step a σ with
    | Some σ' => db_run acts σ'
    | None => None
    end
  end.

Definition new_db_system : DbSystem :=
  {| module := new_module; db_tasks := []; got := [] |}.

(** The number of [close()] calls made so far, and of calls of
    [closeDatabase] waiting for theirs to settle. *)
Definition is_close (cm : Surreal * Method) : bool :=
  match snd cm with Close => true | _ => false end.

Definition is_closing (t : DbTask) : bool :=
  match t with TCloseDatabase DbClosing => true | _ => false end.

Definition closes (s : ClientModule) : nat :=
  length (filter (λ cm, is_close cm = true) (called s)).

Definition closing (ts : list DbTask) : nat :=
  length (filter (λ t, is_closing t = true) ts).

(** What every interleaving of calls of the module keeps true: [db] is the
    client constructed last, calls are made on constructed clients only,
    and a client is constructed only when [db] is unset, which after the
    first construction takes a fulfilled [close()]. *)
Definition db_Inv (σ : DbSystem) : Prop :=
  let s := module σ in
  (∀ c, db s = Some c → built s = S c)
  ∧ (∀ c m, (c, m) ∈ called s → (c < built s)%nat)
  ∧ (built s + closing (db_tasks σ) ≤ (if db s is Some _ then 1 else 0) + closes s)%nat.

(** What the interleavings in which [closeDatabase] is never called keep
    true. *)
Definition db_single (σ : DbSystem) : Prop :=
  let s := module σ in
  (∀ k, TCloseDatabase k ∉ db_tasks σ)
  ∧ (∀ c m, (c, m) ∈ called s → c = 0%nat)
  ∧ match db s with
    | None =>
      built s = 0%nat
      ∧ (∀ k, TInitDatabase k ∉ db_tasks σ)
      ∧ (∀ r, r ∈ got σ → r = Rejected not_initialized)
    | Some c =>
      c = 0%nat ∧ built s = 1%nat
      ∧ (∀ r, TInitDatabase (DbInitSettled (Resolved r)) ∈ db_tasks σ → r = Some 0%nat)
      ∧ (∀ r, r ∈ got σ → r = Resolved 0%nat ∨ r = Rejected not_initialized)
    end.

(** ** Inputs at which the further theorems are evaluated *)

(** Two [acquire()] calls made back to back on a new pool, up to the
    point where the first holds its client and the second is about to be
    resumed. *)
Definition second_acquire_waiting : list (Action unit) :=
  [ Call_acquire; Call_acquire;
    Resume 0 (PoolEvent (Handshook handshake_ok));
    Resume 1 (PoolEvent (Handshook handshake_ok));
    Resume 0 (PoolEvent Tick) ].

(** A new pool of at most two connections. *)
Definition fresh_world : World := new_world 2 5000 (λ _, 0).

(** The module after a successful [initDatabase]. *)
Definition connected_module : ClientModule :=
  {| db := Some 0%nat; built := 1%nat;
     called := [(0%nat, Use); (0%nat, Signin); (0%nat, Connect)] |}.

(** An [initDatabase] waiting for its [signin]. *)
Definition signing_in_system : DbSystem :=
  {| module := {| db := Some 0%nat; built := 1%nat;
                  called := [(0%nat, Signin); (0%nat, Connect)] |};
     db_tasks := [TInitDatabase DbSigningIn];
     got := [] |}.

(** A successful [initDatabase], a successful [closeDatabase], and a
    second [initDatabase]. *)
Definition reconnect : list DbAction :=
  [ Call_initDatabase; Resume_db 0 None; Resume_db 0 None; Resume_db 0 None;
    Call_closeDatabase; Resume_db 1 None;
    Call_initDatabase ].

(** Two overlapping [initDatabase], the first of which fails to connect,
    with calls of [getDatabase] and [pingDatabase] in between. *)
Definition failed_connect : list DbAction :=
  [ Call_getDatabase; Call_initDatabase; Call_getDatabase; Call_initDatabase;
    Resume_db 0 (Some (Foreign 1)); Call_pingDatabase; Call_initDatabase;
    Call_getDatabase ].

(** * Lemmas and theorems *)

(** ** Basic facts *)

Lemma first_at_list_find (P : PoolConnection → Prop) `{∀ x, Decision (P x)}
    (l : list PoolConnection) i conn :
  list_find P l = Some (i, conn) ↔ first_at P l i conn.
Proof. unfold first_at. apply list_find_Some. Qed.

Lemma no_match_list_find (P : PoolConnection → Prop) `{∀ x, Decision (P x)}
    (l : list PoolConnection) :
  (∀ conn, conn ∈ l → ¬ P conn) → list_find P l = None.
Proof. intros Hn. apply list_find_None, Forall_forall. exact Hn. Qed.

Lemma filter_inUse_count (l : list PoolConnection) :
  length (filter (λ c, inUse c = true) l) = count_inUse l.
Proof.
  induction l as [|conn l IH]; [reflexivity|].
  rewrite filter_cons. simpl. destruct (inUse conn) eqn:E.
  - rewrite decide_True by reflexivity. simpl. by rewrite IH.
  - rewrite decide_False by discriminate. by rewrite IH.
Qed.

Lemma count_inUse_le (l : list PoolConnection) : (count_inUse l ≤ length l)%nat.
Proof. induction l as [|conn l IH]; simpl; [lia|]. destruct (inUse conn); lia. Qed.

Lemma count_inUse_map (l1 l2 : list PoolConnection) :
  inUse <$> l1 = inUse <$> l2 → count_inUse l1 = count_inUse l2.
Proof.
  revert l2. induction l1 as [|a l1 IH]; intros [|b l2] Heq; try done.
  injection Heq as Hab Hl. simpl. rewrite Hab. f_equal. by apply IH.
Qed.

(** ** release *)

Lemma release_found c w i conn :
  first_at (is_client c) (pool (this w)) i conn →
  release c w =
    (tt, {| this := with_pool (<[ i := {| client := c; inUse := false;
                                          lastUsed := clock w (reads w) |} ]>
                                 (pool (this w))) (this w);
            clock := clock w; reads := S (reads w); objects := objects w;
            closeCalls := closeCalls w |}).
Proof.
  intros Hf. pose proof Hf as (_ & Hc & _). unfold is_client in Hc.
  apply (first_at_list_find (is_client c)) in Hf.
  unfold release, bind, get_this. rewrite Hf.
  simpl. by rewrite Hc.
Qed.

Lemma release_unknown c w :
  (∀ conn, conn ∈ pool (this w) → client conn ≠ c) → release c w = (tt, w).
Proof.
  intros Hn. unfold release, bind, get_this.
  rewrite (no_match_list_find (is_client c)) by exact Hn. done.
Qed.

Lemma release_cases c w :
  (∃ i conn, first_at (is_client c) (pool (this w)) i conn) ∨
  (∀ conn, conn ∈ pool (this w) → client conn ≠ c).
Proof.
  destruct (list_find (is_client c) (pool (this w))) as [[i conn]|] eqn:E.
  - left. exists i, conn. by apply (first_at_list_find (is_client c)).
  - right. apply list_find_None in E. intros conn Hin.
    by apply (proj1 (Forall_forall _ _) E).
Qed.

Lemma first_at_insert_same (P : PoolConnection → Prop) l i conn conn' :
  first_at P l i conn → P conn' → first_at P (<[ i := conn' ]> l) i conn'.
Proof.
  intros (Hi & _ & Hleast) HP. split_and!; [|done|].
  - apply list_lookup_insert_eq. by eapply lookup_lt_Some.
  - intros j y Hj Hlt. rewrite list_lookup_insert_ne in Hj by lia. eauto.
Qed.

Lemma getStats_eq w :
  getStats w =
    ({| Stats.total := Z.of_nat (length (pool (this w)));
        Stats.inUse := Z.of_nat (count_inUse (pool (this w)));
        Stats.available :=
          Z.of_nat (length (pool (this w))) - Z.of_nat (count_inUse (pool (this w))) |},
     w).
Proof. unfold getStats, bind, get_this, ret. by rewrite filter_inUse_count. Qed.

Lemma getStats_same_flags w1 w2 :
  inUse <$> pool (this w1) = inUse <$> pool (this w2) →
  fst (getStats w1) = fst (getStats w2).
Proof.
  intros Heq. rewrite !getStats_eq. simpl.
  rewrite (count_inUse_map _ _ Heq).
  assert (length (pool (this w1)) = length (pool (this w2))) as ->; [|done].
  by rewrite <- (length_fmap inUse (pool (this w1))), Heq, length_fmap.
Qed.

(** C6 — [release]: when the argument is the client of some pool entry,
    the (first) entry holding it gets [inUse = false] and a fresh
    [lastUsed], every other entry and field being kept; when no entry
    holds it, [release] returns normally and changes nothing, so that
    [getStats] is unchanged.  [release] has no failing path at all. *)
Theorem release_spec (c : Surreal) (w : World) :
  (∀ conn0, conn0 ∈ pool (this w) → client conn0 = c →
     ∃ i conn, first_at (is_client c) (pool (this w)) i conn ∧
       let w' := snd (release c w) in
       let released :=
         {| client := c; inUse := false; lastUsed := clock w (reads w) |} in
       this w' = with_pool (<[ i := released ]> (pool (this w))) (this w) ∧
       pool (this w') !! i = Some released ∧
       ∀ j, j ≠ i → pool (this w') !! j = pool (this w) !! j)
  ∧ ((∀ conn, conn ∈ pool (this w) → client conn ≠ c) →
     release c w = (tt, w) ∧
     fst (getStats (snd (release c w))) = fst (getStats w)).
Proof.
  split.
  - intros conn0 Hin Hc.
    destruct (release_cases c w) as [(i & conn & Hf)|Hn]; [|by destruct (Hn conn0)].
    exists i, conn. split; [done|]. rewrite (release_found _ _ _ _ Hf). simpl.
    destruct Hf as (Hi & _). split_and!; [done| |].
    + apply list_lookup_insert_eq. by eapply lookup_lt_Some.
    + intros j Hj. by apply list_lookup_insert_ne.
  - intros Hn. by rewrite (release_unknown _ _ Hn).
Qed.

(** C10 — a second [release] of the same client right after the first
    leaves every [inUse] flag, every client and [getStats] as the first
    left them; if the client is tracked it only rewrites [lastUsed] of the
    very entry the first call released. *)
Theorem release_idempotent (c : Surreal) (w : World) :
  let w1 := snd (release c w) in
  let w2 := snd (release c w1) in
  inUse <$> pool (this w2) = inUse <$> pool (this w1)
  ∧ client <$> pool (this w2) = client <$> pool (this w1)
  ∧ fst (getStats w2) = fst (getStats w1)
  ∧ (∀ i conn, first_at (is_client c) (pool (this w)) i conn →
       this w2 =
         with_pool (<[ i := {| client := c; inUse := false;
                               lastUsed := clock w (S (reads w)) |} ]>
                      (pool (this w1))) (this w1)).
Proof.
  intros w1 w2.
  assert (inUse <$> pool (this w2) = inUse <$> pool (this w1)
          ∧ client <$> pool (this w2) = client <$> pool (this w1)
          ∧ (∀ i conn, first_at (is_client c) (pool (this w)) i conn →
               this w2 =
                 with_pool (<[ i := {| client := c; inUse := false;
                                       lastUsed := clock w (S (reads w)) |} ]>
                              (pool (this w1))) (this w1))) as (H1 & H2 & H3).
  { subst w1 w2.
    destruct (release_cases c w) as [(i & conn & Hf)|Hn].
    - rewrite (release_found _ _ _ _ Hf). cbn [snd].
      set (e1 := {| client := c; inUse := false; lastUsed := clock w (reads w) |}).
      assert (first_at (is_client c) (<[ i := e1 ]> (pool (this w))) i e1) as Hf1
        by (by eapply first_at_insert_same).
      rewrite (release_found c _ i e1) by exact Hf1. cbn.
      rewrite !list_fmap_insert, !list_insert_insert_eq. split_and!; [done..|].
      intros i' conn' Hf'.
      apply (first_at_list_find (is_client c)) in Hf, Hf'.
      rewrite Hf in Hf'. simplify_eq. unfold with_pool. cbn.
      by rewrite list_insert_insert_eq.
    - rewrite !(release_unknown _ _ Hn). cbn [snd].
      rewrite !(release_unknown _ _ Hn). split_and!; [done..|].
      intros i conn (Hi & Hc & _). apply list_elem_of_lookup_2 in Hi.
      by destruct (Hn conn). }
  split_and!; [done..| |done]. by apply getStats_same_flags.
Qed.

(** C8 — [getStats] leaves the pool and its environment as they are and
    returns [total] = number of entries, [inUse] = number of entries
    whose flag is set, [available] = [total - inUse]; hence in every
    state [available + inUse = total], with no negative component. *)
Theorem getStats_spec (w : World) :
  let s := fst (getStats w) in
  snd (getStats w) = w
  ∧ Stats.total s = Z.of_nat (length (pool (this w)))
  ∧ Stats.inUse s = Z.of_nat (count_inUse (pool (this w)))
  ∧ Stats.available s = Stats.total s - Stats.inUse s
  ∧ Stats.available s + Stats.inUse s = Stats.total s
  ∧ 0 ≤ Stats.inUse s ∧ 0 ≤ Stats.available s.
Proof.
  rewrite getStats_eq. cbn.
  pose proof (count_inUse_le (pool (this w))). split_and!; try done; lia.
Qed.

(** ** initialize *)

Lemma length_created clock k c next r : length (created clock k c next r) = k.
Proof. revert c next r. induction k; intros; simpl; [done|]. by rewrite IHk. Qed.

Lemma created_free clock k c next r : Forall is_free (created clock k c next r).
Proof.
  revert c next r. induction k; intros; simpl; constructor; [done|]. apply IHk.
Qed.

Lemma createConnection_ok c h :
  createConnection c h = Resolved c ↔ h = handshake_ok.
Proof.
  destruct h as [[?|] [?|] [?|]]; unfold createConnection, handshake_ok; simpl;
    split; intros; simplify_eq; done.
Qed.

Lemma createConnection_cases (h : Handshake) :
  h = handshake_ok ∨ ∃ e, ∀ c', createConnection c' h = Rejected e.
Proof.
  destruct h as [[e1|] [e2|] [e3|]]; unfold createConnection, handshake_ok; simpl;
    eauto.
Qed.

Lemma initialize_loop_next i w :
  i < maxSize (this w) →
  initialize_loop i w =
    (InitCreating i (objects w),
     {| this := this w; clock := clock w; reads := reads w;
        objects := S (objects w); closeCalls := closeCalls w |}).
Proof.
  intros Hi. unfold initialize_loop, bind, get_this.
  by rewrite (proj2 (Z.ltb_lt _ _) Hi).
Qed.

Lemma initialize_loop_done i w :
  maxSize (this w) ≤ i →
  initialize_loop i w =
    (InitSettled (Resolved tt),
     {| this := {| pool := pool (this w); maxSize := maxSize (this w);
                   timeout := timeout (this w); initialized := true |};
        clock := clock w; reads := reads w;
        objects := objects w; closeCalls := closeCalls w |}).
Proof.
  intros Hi. unfold initialize_loop, bind, get_this.
  by rewrite (proj2 (Z.ltb_ge _ _) Hi).
Qed.

Lemma run_cons {S E} (step : S → E → option (M S)) s ev evs w m :
  step s ev = Some m →
  run step s (ev :: evs) w = run step (fst (m w)) evs (snd (m w)).
Proof. intros H. simpl. rewrite H. by destruct (m w). Qed.

Lemma initialize_resume_ok i c w :
  initialize_resume i c handshake_ok w = initialize_loop (i + 1) (pushed c w).
Proof. reflexivity. Qed.

Lemma initialize_resume_failed i c h e w :
  createConnection c h = Rejected e →
  initialize_resume i c h w = (InitSettled (Rejected (initialize_failed e)), w).
Proof. intros H. unfold initialize_resume. by rewrite H. Qed.

Ltac run_step := erewrite run_cons; [|reflexivity]; cbn [fst snd].

Lemma run_initialize_all k : ∀ (i : Z) (c : Surreal) (w : World),
  i + Z.of_nat (S k) = maxSize (this w) →
  run init_step (InitCreating i c) (replicate (S k) (Handshook handshake_ok)) w =
    Some (InitSettled (Resolved tt), after_created (S k) c w true).
Proof.
  induction k as [|k IH]; intros i c w Hi.
  - rewrite replicate_S. run_step. rewrite initialize_resume_ok.
    rewrite initialize_loop_done by (cbn; lia). unfold after_created. cbn.
    do 3 f_equal; lia.
  - rewrite replicate_S. run_step. rewrite initialize_resume_ok.
    rewrite initialize_loop_next by (cbn; lia). cbn [fst snd].
    rewrite IH by (cbn; lia). unfold after_created. cbn.
    rewrite <- app_assoc. cbn. do 3 f_equal; try lia.
Qed.

Lemma run_app {S E} (step : S → E → option (M S)) s evs1 evs2 w :
  run step s (evs1 ++ evs2) w =
    match run step s evs1 w with
    | Some (s', w') => run step s' evs2 w'
    | None => None
    end.
Proof.
  revert s w. induction evs1 as [|ev evs1 IH]; intros s w; simpl; [done|].
  destruct (step s ev) as [m|]; [|done]. destruct (m w). apply IH.
Qed.

Lemma run_init_settled r evs w s w' :
  run init_step (InitSettled r) evs w = Some (s, w') →
  evs = [] ∧ s = InitSettled r ∧ w' = w.
Proof. destruct evs; simpl; intros; by simplify_eq. Qed.

Lemma run_initialize_some k : ∀ (i : Z) (c : Surreal) (w : World),
  i + Z.of_nat k < maxSize (this w) →
  run init_step (InitCreating i c) (replicate k (Handshook handshake_ok)) w =
    Some (InitCreating (i + Z.of_nat k) (awaited k c w), after_created k c w false).
Proof.
  induction k as [|k IH]; intros i c w Hi.
  - cbn. unfold after_created. cbn. destruct w as [[] ? ? ? ?]; cbn.
    rewrite app_nil_r, Z.add_0_r, !Nat.add_0_r. done.
  - rewrite replicate_S. run_step. rewrite initialize_resume_ok.
    rewrite initialize_loop_next by (cbn; lia). cbn [fst snd].
    rewrite IH by (cbn; lia). unfold after_created. cbn.
    rewrite <- app_assoc. cbn. do 2 f_equal.
    + f_equal; [lia|]. destruct k; cbn; lia.
    + f_equal; lia.
Qed.

(** A run of the loop of [initialize] is either the complete run of
    successful handshakes, or leaves [initialized] as it was. *)
Lemma run_initialize_inv evs : ∀ (i : Z) (c : Surreal) (w : World) s w',
  i < maxSize (this w) →
  run init_step (InitCreating i c) evs w = Some (s, w') →
  (evs = replicate (Z.to_nat (maxSize (this w) - i)) (Handshook handshake_ok)
   ∧ s = InitSettled (Resolved tt))
  ∨ (initialized (this w') = initialized (this w)
     ∧ s ≠ InitSettled (Resolved tt)).
Proof.
  induction evs as [|ev evs IH]; intros i c w s w' Hi Hrun.
  { simpl in Hrun. simplify_eq. by right. }
  destruct ev as [h| |]; try discriminate.
  erewrite run_cons in Hrun by reflexivity.
  destruct (createConnection_cases h) as [->|[e He]].
  - rewrite initialize_resume_ok in Hrun.
    destruct (decide (i + 1 < maxSize (this w))) as [Hlt|Hge].
    + rewrite initialize_loop_next in Hrun by (cbn; lia). cbn [fst snd] in Hrun.
      apply IH in Hrun; [|cbn; lia]. cbn in Hrun.
      destruct Hrun as [[-> ->]|[? ?]]; [left|by right].
      split; [|done].
      replace (Z.to_nat (maxSize (this w) - i))
        with (S (Z.to_nat (maxSize (this w) - (i + 1)))) by lia.
      done.
    + rewrite initialize_loop_done in Hrun by (cbn; lia). cbn [fst snd] in Hrun.
      apply run_init_settled in Hrun as (-> & -> & ->). left.
      replace (Z.to_nat (maxSize (this w) - i)) with 1%nat by lia. done.
  - rewrite (initialize_resume_failed _ _ _ _ _ (He c)) in Hrun. cbn [fst snd] in Hrun.
    apply run_init_settled in Hrun as (-> & -> & ->). by right.
Qed.

Lemma call_initialize_inv evs w s w' :
  initialized (this w) = false →
  call initialize init_step evs w = Some (s, w') →
  (evs = replicate (Z.to_nat (maxSize (this w))) (Handshook handshake_ok)
   ∧ s = InitSettled (Resolved tt))
  ∨ (initialized (this w') = false ∧ s ≠ InitSettled (Resolved tt)).
Proof.
  intros Hinit. unfold call, initialize, bind, get_this. rewrite Hinit.
  destruct (decide (0 < maxSize (this w))) as [Hlt|Hge].
  - rewrite initialize_loop_next by done. intros Hrun.
    apply run_initialize_inv in Hrun; [|done]. cbn in Hrun.
    rewrite Z.sub_0_r, Hinit in Hrun. done.
  - rewrite initialize_loop_done by lia. intros Hrun.
    apply run_init_settled in Hrun as (-> & -> & ->). left.
    replace (Z.to_nat (maxSize (this w))) with 0%nat by lia. done.
Qed.

Lemma call_initialize_all w :
  initialized (this w) = false →
  let n := Z.to_nat (maxSize (this w)) in
  ∃ w', call initialize init_step (replicate n (Handshook handshake_ok)) w =
          Some (InitSettled (Resolved tt), w')
    ∧ this w' =
        {| pool := pool (this w) ++
                     created (clock w) n (objects w) (S (objects w)) (reads w);
           maxSize := maxSize (this w); timeout := timeout (this w);
           initialized := true |}.
Proof.
  intros Hinit n. unfold call, initialize, bind, get_this. rewrite Hinit.
  destruct (decide (0 < maxSize (this w))) as [Hlt|Hge].
  - rewrite initialize_loop_next by done.
    destruct n as [|k] eqn:En; [lia|].
    rewrite run_initialize_all by (cbn; lia). eexists. split; [done|]. done.
  - rewrite initialize_loop_done by lia.
    replace n with 0%nat by lia. eexists. split; [done|].
    cbn. by rewrite app_nil_r.
Qed.

Lemma call_initialize_failing w k h e :
  initialized (this w) = false →
  (k < Z.to_nat (maxSize (this w)))%nat →
  createConnection 0%nat h = Rejected e →
  ∃ w', call initialize init_step
          (replicate k (Handshook handshake_ok) ++ [Handshook h]) w =
          Some (InitSettled (Rejected (initialize_failed e)), w')
    ∧ this w' =
        with_pool (pool (this w) ++
                     created (clock w) k (objects w) (S (objects w)) (reads w))
                  (this w).
Proof.
  intros Hinit Hk He. unfold call, initialize, bind, get_this. rewrite Hinit.
  rewrite initialize_loop_next by lia.
  rewrite run_app, run_initialize_some by (cbn; lia).
  run_step.
  destruct (createConnection_cases h) as [->|[e' He']]; [done|].
  rewrite He' in He. simplify_eq.
  rewrite (initialize_resume_failed _ _ _ _ _ (He' _)). cbn [fst snd].
  eexists. split; [done|]. unfold with_pool, after_created. cbn.
  by rewrite Hinit.
Qed.

(** [initialize] run alone: on an initialized pool it settles at once and
    changes nothing (no object is constructed); otherwise, run with
    [n = maxSize] successful handshakes it appends [n] entries, all with
    [inUse = false], and sets [initialized]; [initialized] becomes true
    in no other run, so a rejected [initialize] leaves it false (the
    entries made before the failure staying in the array); and a second
    [initialize] started after a successful one creates nothing, so that
    a pool that started empty holds exactly [n] entries after both. *)
Lemma initialize_alone (w : World) :
  let n := Z.to_nat (maxSize (this w)) in
  let all_ok := replicate n (Handshook handshake_ok) in
  (initialized (this w) = true → initialize w = (InitSettled (Resolved tt), w))
  ∧ (initialized (this w) = false →
     (∃ w' new,
        call initialize init_step all_ok w = Some (InitSettled (Resolved tt), w')
        ∧ this w' = {| pool := pool (this w) ++ new; maxSize := maxSize (this w);
                       timeout := timeout (this w); initialized := true |}
        ∧ length new = n ∧ Forall is_free new
        ∧ call initialize init_step [] w' = Some (InitSettled (Resolved tt), w')
        ∧ (pool (this w) = [] → length (pool (this w')) = n))
     ∧ (∀ evs s w', call initialize init_step evs w = Some (s, w') →
          initialized (this w') = true →
          evs = all_ok ∧ s = InitSettled (Resolved tt))
     ∧ (∀ evs e w',
          call initialize init_step evs w = Some (InitSettled (Rejected e), w') →
          initialized (this w') = false)
     ∧ (∀ k h e, (k < n)%nat → createConnection 0%nat h = Rejected e →
          ∃ w', call initialize init_step
                  (replicate k (Handshook handshake_ok) ++ [Handshook h]) w =
                  Some (InitSettled (Rejected (initialize_failed e)), w')
            ∧ initialized (this w') = false
            ∧ length (pool (this w')) = (length (pool (this w)) + k)%nat)).
Proof.
  intros n all_ok. split.
  { intros Hinit. unfold initialize, bind, get_this. by rewrite Hinit. }
  intros Hinit. split_and!.
  - destruct (call_initialize_all w Hinit) as (w' & Hcall & Hthis).
    exists w', (created (clock w) n (objects w) (S (objects w)) (reads w)).
    split_and!; [done|done|apply length_created|apply created_free| |].
    + unfold call, initialize, bind, get_this. by rewrite Hthis.
    + intros Hnil. rewrite Hthis, Hnil. cbn. apply length_created.
  - intros evs s w' Hcall Htrue.
    destruct (call_initialize_inv _ _ _ _ Hinit Hcall) as [?|[Hf _]]; [done|].
    congruence.
  - intros evs e w' Hcall.
    destruct (call_initialize_inv _ _ _ _ Hinit Hcall) as [[_ ?]|[Hf _]]; done.
  - intros k h e Hk He.
    destruct (call_initialize_failing w k h e Hinit Hk He) as (w' & Hcall & Hthis).
    exists w'. split_and!; [done|by rewrite Hthis|].
    rewrite Hthis. cbn. by rewrite length_app, length_created.
Qed.

(** ** acquire *)

Lemma acquire_loop_timed_out start w :
  timeout (this w) ≤ clock w (reads w) - start →
  acquire_loop start w =
    (AcqSettled (Rejected (acquire_timed_out (timeout (this w)))), ticked w).
Proof.
  intros Hg. unfold acquire_loop, bind, Date_now, get_this. cbn.
  by rewrite (proj2 (Z.ltb_ge _ _) Hg).
Qed.

Lemma acquire_loop_found start w i available :
  clock w (reads w) - start < timeout (this w) →
  first_at is_free (pool (this w)) i available →
  acquire_loop start w =
    (AcqSettled (Resolved (client available)),
     {| this := with_pool (<[ i := {| client := client available; inUse := true;
                                      lastUsed := clock w (S (reads w)) |} ]>
                             (pool (this w))) (this w);
        clock := clock w; reads := S (S (reads w)); objects := objects w;
        closeCalls := closeCalls w |}).
Proof.
  intros Hg Hf. apply (first_at_list_find is_free) in Hf.
  unfold acquire_loop, bind, Date_now, get_this. cbn.
  by rewrite (proj2 (Z.ltb_lt _ _) Hg), Hf.
Qed.

Lemma acquire_loop_none start w :
  clock w (reads w) - start < timeout (this w) →
  Forall (λ conn, inUse conn = true) (pool (this w)) →
  acquire_loop start w = (AcqSleeping start, ticked w).
Proof.
  intros Hg Hall. unfold acquire_loop, bind, Date_now, get_this. cbn.
  rewrite (proj2 (Z.ltb_lt _ _) Hg).
  rewrite (no_match_list_find is_free); [done|].
  intros conn Hin. unfold is_free.
  rewrite (proj1 (Forall_forall _ _) Hall conn Hin). done.
Qed.

Lemma free_cases (l : list PoolConnection) :
  (∃ i available, first_at is_free l i available) ∨
  Forall (λ conn, inUse conn = true) l.
Proof.
  destruct (list_find is_free l) as [[i conn]|] eqn:E.
  - left. exists i, conn. by apply (first_at_list_find is_free).
  - right. apply list_find_None in E. eapply Forall_impl; [exact E|].
    intros conn. unfold is_free. by destruct (inUse conn).
Qed.

(** A scan that hands out no connection changes nothing in the pool. *)
Lemma acquire_loop_unchanged start w :
  (∃ c, fst (acquire_loop start w) = AcqSettled (Resolved c)) ∨
  (this (snd (acquire_loop start w)) = this w
   ∧ (fst (acquire_loop start w) = AcqSleeping start
      ∨ fst (acquire_loop start w) =
          AcqSettled (Rejected (acquire_timed_out (timeout (this w)))))).
Proof.
  destruct (decide (clock w (reads w) - start < timeout (this w))) as [Hg|Hg].
  - destruct (free_cases (pool (this w))) as [(i & a & Hf)|Hall].
    + left. rewrite (acquire_loop_found _ _ _ _ Hg Hf). eauto.
    + right. rewrite (acquire_loop_none _ _ Hg Hall). auto.
  - right. rewrite acquire_loop_timed_out by lia. auto.
Qed.

Lemma acquire_initialized w :
  initialized (this w) = true →
  acquire w = acquire_loop (clock w (reads w)) (ticked w).
Proof. intros Hinit. unfold acquire, bind, get_this. by rewrite Hinit. Qed.

Lemma acquire_uninitialized w :
  initialized (this w) = false →
  acquire w = (AcqInitializing (fst (initialize w)), snd (initialize w)).
Proof.
  intros Hinit. unfold acquire, bind at 1, get_this. rewrite Hinit.
  unfold bind, ret. by destruct (initialize w).
Qed.















(** C2 (amended) — [acquire] on a pool that is not initialized first runs
    [initialize] and waits for it; every scan (the one of the call on an
    initialized pool, the one after [initialize] resolved, the ones after
    each sleep) is [acquire_loop], and a scan made while
    [Date.now() - start < timeout] with some entry free takes the first
    free entry: its [inUse] is set, its [lastUsed] refreshed, its client
    returned, and every other entry and field is kept. *)
Theorem acquire_first_fit (w : World) :
  (initialized (this w) = false →
     acquire w = (AcqInitializing (fst (initialize w)), snd (initialize w)))
  ∧ (initialized (this w) = true →
     acquire w = acquire_loop (clock w (reads w)) (ticked w))
  ∧ acq_step (AcqInitializing (InitSettled (Resolved tt))) Tick = Some acquire_body
  ∧ acquire_body w = acquire_loop (clock w (reads w)) (ticked w)
  ∧ (∀ start, acq_step (AcqSleeping start) Tick = Some (acquire_loop start))
  ∧ (∀ start i available,
       clock w (reads w) - start < timeout (this w) →
       first_at is_free (pool (this w)) i available →
       let taken := {| client := client available; inUse := true;
                       lastUsed := clock w (S (reads w)) |} in
       let w' := snd (acquire_loop start w) in
       fst (acquire_loop start w) = AcqSettled (Resolved (client available))
       ∧ this w' = with_pool (<[ i := taken ]> (pool (this w))) (this w)
       ∧ pool (this w') !! i = Some taken
       ∧ ∀ j, j ≠ i → pool (this w') !! j = pool (this w) !! j).
Proof.
  split_and!.
  - apply acquire_uninitialized.
  - apply acquire_initialized.
  - done.
  - done.
  - done.
  - intros start i available Hg Hf taken w'. subst w'.
    rewrite (acquire_loop_found _ _ _ _ Hg Hf). cbn.
    destruct Hf as (Hi & _). split_and!; [done..| |].
    + apply list_lookup_insert_eq. by eapply lookup_lt_Some.
    + intros j Hj. by apply list_lookup_insert_ne.
Qed.


(** C9, amended — with a timeout of zero or less and a clock that does
    not run backwards, [acquire] on an initialized pool is rejected with
    the time-out error in its very first segment, whatever the entries
    are, and the pool object is unchanged.  The proviso on the clock is
    needed: see [backward_clock_world]. *)
Theorem acquire_nonpositive_timeout (w : World) :
  initialized (this w) = true →
  timeout (this w) ≤ 0 →
  monotone (clock w) →
  acquire w =
    (AcqSettled (Rejected (acquire_timed_out (timeout (this w)))), ticked (ticked w))
  ∧ this (snd (acquire w)) = this w.
Proof.
  intros Hinit Ht Hmono. rewrite (acquire_initialized _ Hinit).
  rewrite acquire_loop_timed_out; [done|].
  cbn. specialize (Hmono (reads w)). lia.
Qed.

(** ** closeAll *)

Lemma closeAll_loop_next i conn w :
  pool (this w) !! i = Some conn →
  closeAll_loop i w = (CloseClosing i, with_closeCalls (client conn :: closeCalls w) w).
Proof. intros Hi. unfold closeAll_loop, bind, get_this. by rewrite Hi. Qed.

Lemma closeAll_loop_done i w :
  pool (this w) !! i = None →
  closeAll_loop i w = (CloseSettled (Resolved tt), torn_down w).
Proof. intros Hi. unfold closeAll_loop, bind, get_this. by rewrite Hi. Qed.

Lemma run_close_all r : ∀ (i : nat) (w : World),
  (S i + r)%nat = length (pool (this w)) →
  run close_step (CloseClosing i) (replicate (S r) (Closed None)) w =
    Some (CloseSettled (Resolved tt),
          torn_down (with_closeCalls
            (rev (client <$> drop (S i) (pool (this w))) ++ closeCalls w) w)).
Proof.
  induction r as [|r IH]; intros i w Hlen.
  - rewrite replicate_S. run_step. cbn [closeAll_resume].
    rewrite closeAll_loop_done by (apply lookup_ge_None; lia).
    rewrite drop_ge by lia. done.
  - rewrite replicate_S. run_step. cbn [closeAll_resume].
    destruct (lookup_lt_is_Some_2 (pool (this w)) (S i)) as [conn Hconn]; [lia|].
    rewrite (closeAll_loop_next _ _ _ Hconn). cbn [fst snd].
    rewrite IH by (cbn; lia). cbn.
    rewrite (drop_S _ _ _ Hconn). cbn. by rewrite <- app_assoc.
Qed.

Lemma run_close_some k : ∀ (i : nat) (w : World),
  (i + k < length (pool (this w)))%nat →
  run close_step (CloseClosing i) (replicate k (Closed None)) w =
    Some (CloseClosing (i + k),
          with_closeCalls
            (rev (client <$> take k (drop (S i) (pool (this w)))) ++ closeCalls w) w).
Proof.
  induction k as [|k IH]; intros i w Hlen.
  - cbn. rewrite Nat.add_0_r. by destruct w.
  - rewrite replicate_S. run_step. cbn [closeAll_resume].
    destruct (lookup_lt_is_Some_2 (pool (this w)) (S i)) as [conn Hconn]; [lia|].
    rewrite (closeAll_loop_next _ _ _ Hconn). cbn [fst snd].
    rewrite IH by (cbn; lia). cbn.
    rewrite (drop_S _ _ _ Hconn). cbn. rewrite <- app_assoc.
    replace (i + S k)%nat with (S (i + k)) by lia. done.
Qed.

Lemma call_closeAll_all w :
  call closeAll close_step (replicate (length (pool (this w))) (Closed None)) w =
    Some (CloseSettled (Resolved tt),
          torn_down (with_closeCalls
            (rev (client <$> pool (this w)) ++ closeCalls w) w)).
Proof.
  unfold call, closeAll. destruct (pool (this w)) as [|conn l] eqn:Hpool.
  - rewrite closeAll_loop_done by (by rewrite Hpool). cbn. by destruct w.
  - rewrite (closeAll_loop_next 0 conn) by (by rewrite Hpool).
    cbn [length]. rewrite run_close_all by (cbn; rewrite Hpool; cbn; lia).
    cbn. rewrite Hpool. cbn. by rewrite drop_0, <- app_assoc.
Qed.

Lemma call_closeAll_failing w k e :
  (k < length (pool (this w)))%nat →
  call closeAll close_step (replicate k (Closed None) ++ [Closed (Some e)]) w =
    Some (CloseSettled (Rejected (closeAll_failed e)),
          with_closeCalls
            (rev (client <$> take (S k) (pool (this w))) ++ closeCalls w) w).
Proof.
  intros Hk. unfold call, closeAll.
  destruct (pool (this w)) as [|conn l] eqn:Hpool; [cbn in Hk; lia|].
  rewrite (closeAll_loop_next 0 conn) by (by rewrite Hpool).
  rewrite run_app, run_close_some by (cbn; rewrite Hpool; cbn in *; lia).
  cbn. rewrite Hpool. cbn. by rewrite drop_0, <- app_assoc.
Qed.

(** C7 (amended) — [closeAll] calls [close()] on the entries in order and
    stops at the first one that fails; when all succeed the array is
    emptied and [initialized] reset, and a further [closeAll] closes
    nothing and changes nothing; when the close of entry [k] fails the
    call is rejected with a [DatabaseError] wrapping the cause, the pool
    object is left as it was, and only the first [k + 1] clients have had
    [close()] called. *)
Theorem closeAll_spec (w : World) :
  let l := pool (this w) in
  (∃ w',
     call closeAll close_step (replicate (length l) (Closed None)) w =
       Some (CloseSettled (Resolved tt), w')
     ∧ this w' = {| pool := []; maxSize := maxSize (this w);
                    timeout := timeout (this w); initialized := false |}
     ∧ closeCalls w' = rev (client <$> l) ++ closeCalls w
     ∧ call closeAll close_step [] w' = Some (CloseSettled (Resolved tt), w'))
  ∧ (∀ k e, (k < length l)%nat →
       ∃ w',
         call closeAll close_step (replicate k (Closed None) ++ [Closed (Some e)]) w =
           Some (CloseSettled (Rejected (closeAll_failed e)), w')
         ∧ this w' = this w
         ∧ closeCalls w' = rev (client <$> take (S k) l) ++ closeCalls w
         ∧ ∀ ev, close_step (CloseSettled (Rejected (closeAll_failed e))) ev = None).
Proof.
  intros l. split.
  - eexists. split; [apply call_closeAll_all|]. split_and!; done.
  - intros k e Hk. eexists. split; [by apply call_closeAll_failing|].
    split_and!; done.
Qed.

(** ** withConnection *)

Lemma run_with_acquiring {T} evs : ∀ (s : Acquire) (w : World) s' w',
  run acq_step s evs w = Some (s', w') →
  run (with_step (T:=T)) (WithAcquiring s) (PoolEvent <$> evs) w =
    Some (WithAcquiring s', w').
Proof.
  induction evs as [|ev evs IH]; intros s w s' w' Hrun.
  { simpl in Hrun. by simplify_eq. }
  destruct (acq_step s ev) as [m|] eqn:Hstep; [|by simpl in Hrun; rewrite Hstep in Hrun].
  erewrite run_cons in Hrun by exact Hstep.
  rewrite fmap_cons.
  erewrite (run_cons with_step _ _ _ _ (let* s := m in ret (WithAcquiring s))).
  - unfold bind, ret. destruct (m w) as [s1 w1]. cbn in *. by apply IH.
  - destruct s as [?|?|?]; cbn [with_step]; [by rewrite Hstep..|done].
Qed.

Lemma call_with_acquiring {T} evs w s' w' :
  call acquire acq_step evs w = Some (s', w') →
  call (withConnection (T:=T)) with_step (PoolEvent <$> evs) w =
    Some (WithAcquiring s', w').
Proof.
  unfold call, withConnection, bind, ret. destruct (acquire w) as [s w1].
  apply run_with_acquiring.
Qed.

Lemma release_frees c w i conn :
  first_at (is_client c) (pool (this w)) i conn →
  ∃ conn', pool (this (snd (release c w))) !! i = Some conn'
           ∧ client conn' = c ∧ inUse conn' = false.
Proof.
  intros Hf. rewrite (release_found _ _ _ _ Hf). cbn. eexists. split_and!.
  - apply list_lookup_insert_eq. destruct Hf as (Hi & _). by eapply lookup_lt_Some.
  - done.
  - done.
Qed.

Lemma withConnection_finally_eq {T} c (r : Settled T) w :
  withConnection_finally c r w = (WithSettled r, snd (release c w)).
Proof.
  unfold withConnection_finally, bind, ret. by destruct (release c w) as [[] ?].
Qed.

(** C4 — [withConnection] first acquires; if [acquire] is rejected the
    call is rejected with the same error; if it resolves with [c] the
    callback is started on [c], the only way on is the settling of the
    callback's promise, and whether that is fulfilled or rejected
    [release(c)] runs and the call settles exactly as the callback did,
    the entry of [c] being free afterwards (so that on a pool of one
    entry the next [acquire] gets [c] at once). *)
Theorem withConnection_spec {T : Type} (w : World) :
  withConnection (T:=T) w = (WithAcquiring (fst (acquire w)), snd (acquire w))
  ∧ (∀ evs e w1,
       call acquire acq_step evs w = Some (AcqSettled (Rejected e), w1) →
       call (withConnection (T:=T)) with_step
         ((PoolEvent <$> evs) ++ [PoolEvent Tick]) w =
         Some (WithSettled (Rejected e), w1))
  ∧ (∀ evs c w1,
       call acquire acq_step evs w = Some (AcqSettled (Resolved c), w1) →
       call (withConnection (T:=T)) with_step
         ((PoolEvent <$> evs) ++ [PoolEvent Tick]) w =
         Some (WithRunning c, w1)
       ∧ ∀ r : Settled T,
           call withConnection with_step
             ((PoolEvent <$> evs) ++ [PoolEvent Tick; FnSettled r]) w =
             Some (WithSettled r, snd (release c w1)))
  ∧ (∀ c (ev : WithEvent T) m,
       with_step (WithRunning c) ev = Some m →
       ∃ r, ev = FnSettled r ∧ m w = (WithSettled r, snd (release c w)))
  ∧ (∀ c i conn,
       first_at (is_client c) (pool (this w)) i conn →
       ∃ conn', pool (this (snd (release c w))) !! i = Some conn'
                ∧ client conn' = c ∧ inUse conn' = false)
  ∧ (∀ c (r : Settled T) conn,
       pool (this w) = [conn] → client conn = c → initialized (this w) = true →
       let w' := snd (withConnection_finally c r w) in
       clock w' (S (reads w')) - clock w' (reads w') < timeout (this w') →
       fst (acquire w') = AcqSettled (Resolved c)).
Proof.
  split_and!.
  - unfold withConnection, bind, ret. by destruct (acquire w).
  - intros evs e w1 Hcall. unfold call in Hcall |- *.
    unfold withConnection, bind, ret. destruct (acquire w) as [s w0].
    rewrite run_app, (run_with_acquiring _ _ _ _ _ Hcall). done.
  - intros evs c w1 Hcall. unfold call in Hcall |- *.
    unfold withConnection, bind, ret. destruct (acquire w) as [s w0].
    split.
    + rewrite run_app, (run_with_acquiring _ _ _ _ _ Hcall). done.
    + intros r. rewrite run_app, (run_with_acquiring _ _ _ _ _ Hcall).
      do 2 run_step. by rewrite withConnection_finally_eq.
  - intros c ev m Hstep. destruct ev as [ev|r]; [done|]. cbn in Hstep.
    simplify_eq. exists r. split; [done|]. apply withConnection_finally_eq.
  - intros c i conn. apply release_frees.
  - intros c r conn Hpool Hc Hinit w' Hg.
    assert (first_at (is_client c) (pool (this w)) 0 conn) as Hf.
    { rewrite Hpool. split_and!; [done..|]. intros; lia. }
    assert (w' = snd (release c w)) as Hw'.
    { subst w'. by rewrite withConnection_finally_eq. }
    rewrite (release_found _ _ _ _ Hf) in Hw'. cbn in Hw'. rewrite Hpool in Hw'.
    rewrite Hw' in Hg |- *. cbn in Hg.
    rewrite acquire_initialized by done.
    rewrite (acquire_loop_found _ _ 0
               {| client := c; inUse := false; lastUsed := clock w (reads w) |}).
    + done.
    + exact Hg.
    + cbn. split_and!; [done..|]. intros; lia.
Qed.


(** ** Interleaved calls: exclusive use of a connection *)

Ltac in_app := rewrite ?elem_of_app, ?elem_of_cons, ?elem_of_nil in *; tauto.

Lemma InvL_perm l o P P' H : P ≡ₚ P' → InvL l o P H → InvL l o P' H.
Proof.
  intros HP (Hnd & Hlt & Hh). split_and!.
  - by rewrite <- HP.
  - intros c Hc. apply Hlt. by rewrite HP.
  - intros c Hc. destruct (Hh c Hc) as [HnP Hl]. split; [|done]. by rewrite <- HP.
Qed.

Lemma InvL_mono l o o' P H : (o ≤ o')%nat → InvL l o P H → InvL l o' P H.
Proof.
  intros Ho (Hnd & Hlt & Hh). split_and!; [done| |done].
  intros c Hc. specialize (Hlt c Hc). lia.
Qed.

Lemma InvL_held_subset l o P H H' :
  (∀ c, c ∈ H' → c ∈ H) → InvL l o P H → InvL l o P H'.
Proof.
  intros Hsub (Hnd & Hlt & Hh). split_and!; [done| |by auto].
  intros c Hc. apply Hlt. rewrite !elem_of_app in Hc. specialize (Hsub c). in_app.
Qed.

Lemma InvL_alloc l o P H : InvL l o P H → InvL l (S o) (o :: P) H.
Proof.
  intros (Hnd & Hlt & Hh). split_and!.
  - rewrite <- Permutation_middle. apply NoDup_cons. split; [|done].
    intros Hin. assert (o < o)%nat; [|lia]. apply Hlt. in_app.
  - intros c Hc.
    assert (c = o ∨ c ∈ (client <$> l) ++ P ++ H) as [->|Hc'] by in_app; [lia|].
    specialize (Hlt c Hc'). lia.
  - intros c Hc. destruct (Hh c Hc) as [HnP Hl]. split; [|done].
    assert (c < o)%nat by (apply Hlt; in_app).
    apply not_elem_of_cons. split; [lia|done].
Qed.

Lemma InvL_push l o c t P H :
  InvL l o (c :: P) H →
  InvL (l ++ [ {| client := c; inUse := false; lastUsed := t |} ]) o P H.
Proof.
  intros (Hnd & Hlt & Hh). unfold InvL. rewrite fmap_app. cbn. split_and!.
  - by rewrite <- app_assoc.
  - intros c' Hc'. apply Hlt. in_app.
  - intros c' Hc'. destruct (Hh c' Hc') as [HnP Hl].
    apply not_elem_of_cons in HnP as [Hne HnP]. split; [done|].
    intros conn [Hin|Hin]%elem_of_app Hcl; [by eauto|].
    apply list_elem_of_singleton in Hin. by subst.
Qed.

Lemma InvL_drop l o c P H : InvL l o (c :: P) H → InvL l o P H.
Proof.
  intros (Hnd & Hlt & Hh). split_and!.
  - rewrite <- Permutation_middle in Hnd. by apply NoDup_cons in Hnd as [_ ?].
  - intros c' Hc'. apply Hlt. in_app.
  - intros c' Hc'. destruct (Hh c' Hc') as [HnP Hl].
    apply not_elem_of_cons in HnP as [Hne HnP]. done.
Qed.

Lemma InvL_clear l o P H : InvL l o P H → InvL [] o P H.
Proof.
  intros (Hnd & Hlt & Hh). split_and!.
  - by apply NoDup_app in Hnd as (_ & _ & ?).
  - intros c Hc. apply Hlt. cbn in Hc. in_app.
  - intros c Hc. destruct (Hh c Hc) as [HnP Hl]. split; [done|].
    intros conn Hin. by apply elem_of_nil in Hin.
Qed.

Lemma fmap_client_insert (l : list PoolConnection) i a b t :
  l !! i = Some a →
  client <$> <[ i := {| client := client a; inUse := b; lastUsed := t |} ]> l =
    client <$> l.
Proof.
  intros Hi. rewrite list_fmap_insert. cbn. apply list_insert_id.
  by rewrite list_lookup_fmap, Hi.
Qed.

Lemma InvL_take l o i a t P H :
  l !! i = Some a → inUse a = false →
  InvL l o P H →
  InvL (<[ i := {| client := client a; inUse := true; lastUsed := t |} ]> l) o P
       (client a :: H)
  ∧ client a ∉ H.
Proof.
  intros Hi Hfree (Hnd & Hlt & Hh).
  assert (client a ∉ H) as HnH.
  { intros Hin. destruct (Hh _ Hin) as [_ Hl].
    rewrite (Hl a) in Hfree; [done|by eapply list_elem_of_lookup_2|done]. }
  assert (client a ∈ client <$> l) as Hcl.
  { apply list_elem_of_fmap. exists a. split; [done|by eapply list_elem_of_lookup_2]. }
  split; [|done]. unfold InvL. rewrite (fmap_client_insert _ _ _ _ _ Hi). split_and!.
  - done.
  - intros c Hc.
    assert (c = client a ∨ c ∈ (client <$> l) ++ P ++ H) as [->|Hc'] by in_app.
    + apply Hlt. in_app.
    + by apply Hlt.
  - intros c Hc. split.
    + apply elem_of_cons in Hc as [->|Hc]; [|by apply Hh].
      apply NoDup_app in Hnd as (_ & Hdisj & _). by apply Hdisj.
    + intros conn Hin Hclient. apply list_elem_of_lookup in Hin as [j Hj].
      apply list_lookup_insert_Some in Hj as [(<- & <- & _)|(Hne & Hj)]; [done|].
      apply elem_of_cons in Hc as [->|Hc].
      * exfalso. apply Hne. apply NoDup_app in Hnd as (Hnd & _).
        eapply (NoDup_lookup (client <$> l)); [done| |].
        -- by rewrite list_lookup_fmap, Hi.
        -- by rewrite list_lookup_fmap, Hj, <- Hclient.
      * destruct (Hh c Hc) as [_ Hl]. apply Hl; [|done].
        by eapply list_elem_of_lookup_2.
Qed.

Lemma InvL_release_at l o i a t P H :
  l !! i = Some a →
  InvL l o P H →
  InvL (<[ i := {| client := client a; inUse := false; lastUsed := t |} ]> l) o P
       (filter (λ c', c' ≠ client a) H).
Proof.
  intros Hi (Hnd & Hlt & Hh).
  unfold InvL. rewrite (fmap_client_insert _ _ _ _ _ Hi). split_and!.
  - done.
  - intros c Hc. apply Hlt. rewrite !elem_of_app, list_elem_of_filter in Hc.
    in_app.
  - intros c [Hne Hc]%list_elem_of_filter. destruct (Hh c Hc) as [HnP Hl].
    split; [done|].
    intros conn Hin Hclient. apply list_elem_of_lookup in Hin as [j Hj].
    apply list_lookup_insert_Some in Hj as [(<- & <- & _)|(_ & Hj)]; [done|].
    apply Hl; [|done]. by eapply list_elem_of_lookup_2.
Qed.

Lemma bind_ret {A B} (m : M A) (f : A → B) w :
  (let* a := m in ret (f a)) w = (f (fst (m w)), snd (m w)).
Proof. unfold bind, ret. by destruct (m w). Qed.

Lemma lift_step_Some {S S'} (wrap : S → S') o m :
  lift_step wrap o = Some m →
  ∃ m0, o = Some m0 ∧ ∀ w, m w = (wrap (fst (m0 w)), snd (m0 w)).
Proof.
  destruct o as [m0|]; [|done]. cbn. intros ?; simplify_eq.
  exists m0. split; [done|]. intros w. apply bind_ret.
Qed.

Lemma initialize_loop_Inv i w P H :
  Inv w P H →
  Inv (snd (initialize_loop i w)) (pending_init (fst (initialize_loop i w)) ++ P) H.
Proof.
  intros HI. destruct (decide (i < maxSize (this w))).
  - rewrite initialize_loop_next by done. by apply InvL_alloc.
  - rewrite initialize_loop_done by lia. done.
Qed.

Lemma initialize_Inv w P H :
  Inv w P H →
  Inv (snd (initialize w)) (pending_init (fst (initialize w)) ++ P) H.
Proof.
  intros HI. unfold initialize, bind, get_this.
  destruct (initialized (this w)); [done|]. by apply initialize_loop_Inv.
Qed.

Lemma initialize_resume_Inv i c h w P H :
  Inv w (c :: P) H →
  Inv (snd (initialize_resume i c h w))
      (pending_init (fst (initialize_resume i c h w)) ++ P) H.
Proof.
  intros HI. destruct (createConnection_cases h) as [->|[e He]].
  - rewrite initialize_resume_ok. apply initialize_loop_Inv. by apply InvL_push.
  - rewrite (initialize_resume_failed _ _ _ _ _ (He c)). by eapply InvL_drop.
Qed.

Lemma acquire_body_eq w :
  acquire_body w = acquire_loop (clock w (reads w)) (ticked w).
Proof. reflexivity. Qed.

Lemma acquire_loop_pending start w : pending_acq (fst (acquire_loop start w)) = [].
Proof.
  destruct (acquire_loop_unchanged start w) as [[c ->]|[_ [->| ->]]]; done.
Qed.

Lemma acquire_loop_Inv start w P H :
  Inv w P H →
  Inv (snd (acquire_loop start w)) P
      (with_granted (granted_acq (fst (acquire_loop start w))) H)
  ∧ (∀ c, granted_acq (fst (acquire_loop start w)) = Some c → c ∉ H).
Proof.
  intros HI.
  destruct (decide (clock w (reads w) - start < timeout (this w))) as [Hg|Hg].
  - destruct (free_cases (pool (this w))) as [(i & a & Hf)|Hall].
    + rewrite (acquire_loop_found _ _ _ _ Hg Hf). cbn.
      destruct Hf as (Hi & Hfree & _).
      destruct (InvL_take _ _ _ _ (clock w (S (reads w))) _ _ Hi Hfree HI) as [HI' Hn].
      split; [done|]. by intros c [= <-].
    + rewrite (acquire_loop_none _ _ Hg Hall). done.
  - rewrite acquire_loop_timed_out by lia. done.
Qed.

Lemma acquire_Inv w P H :
  Inv w P H →
  Inv (snd (acquire w)) (pending_acq (fst (acquire w)) ++ P)
      (with_granted (granted_acq (fst (acquire w))) H)
  ∧ (∀ c, granted_acq (fst (acquire w)) = Some c → c ∉ H).
Proof.
  intros HI. destruct (initialized (this w)) eqn:Hinit.
  - rewrite (acquire_initialized _ Hinit), acquire_loop_pending.
    by apply (acquire_loop_Inv _ (ticked w)).
  - rewrite (acquire_uninitialized _ Hinit). cbn. split; [|done].
    by apply initialize_Inv.
Qed.

Lemma release_Inv c w P H :
  Inv w P H → Inv (snd (release c w)) P (filter (λ c', c' ≠ c) H).
Proof.
  intros HI. destruct (release_cases c w) as [(i & conn & Hf)|Hn].
  - rewrite (release_found _ _ _ _ Hf). destruct Hf as (Hi & Hc & _).
    unfold is_client in Hc. subst c.
    exact (InvL_release_at _ _ _ _ _ _ _ Hi HI).
  - rewrite (release_unknown _ _ Hn). cbn. eapply InvL_held_subset; [|done].
    by intros c' [_ ?]%list_elem_of_filter.
Qed.

Lemma closeAll_loop_Inv i w P H :
  Inv w P H → Inv (snd (closeAll_loop i w)) P H.
Proof.
  intros HI. destruct (pool (this w) !! i) as [conn|] eqn:Hi.
  - by rewrite (closeAll_loop_next _ _ _ Hi).
  - rewrite (closeAll_loop_done _ _ Hi). by eapply InvL_clear.
Qed.

Lemma init_step_Inv s ev m w P H :
  init_step s ev = Some m →
  Inv w (pending_init s ++ P) H →
  Inv (snd (m w)) (pending_init (fst (m w)) ++ P) H.
Proof.
  destruct s as [i c|r]; [|done]. destruct ev as [h| |]; try done.
  cbn. intros ? HI; simplify_eq. by apply initialize_resume_Inv.
Qed.

Lemma acq_step_Inv s ev m w P H :
  acq_step s ev = Some m →
  Inv w (pending_acq s ++ P) H →
  Inv (snd (m w)) (pending_acq (fst (m w)) ++ P)
      (with_granted (granted_acq (fst (m w))) H)
  ∧ (∀ c, granted_acq (fst (m w)) = Some c → c ∉ H).
Proof.
  destruct s as [[i c|r]|start|r]; cbn [acq_step]; intros Hstep HI.
  - apply lift_step_Some in Hstep as (m0 & Hstep & Hm). rewrite Hm. cbn.
    split; [|done]. by eapply init_step_Inv.
  - destruct ev; try done. simplify_eq. destruct r as [[]|e]; cbn [acquire_resume].
    + rewrite acquire_body_eq, acquire_loop_pending.
      by apply (acquire_loop_Inv _ (ticked w)).
    + done.
  - destruct ev; try done. simplify_eq. rewrite acquire_loop_pending.
    by apply acquire_loop_Inv.
  - done.
Qed.

Section ExclusiveProofs.
Context {T : Type}.

Lemma task_step_Inv (t : Task T) ev m w P H :
  task_step t ev = Some m →
  Inv w (pending t ++ P) H →
  Inv (snd (m w)) (pending (fst (m w)) ++ P)
      (with_granted (granted (fst (m w))) (without (released_task t ev) H))
  ∧ (∀ c, granted (fst (m w)) = Some c → c ∉ H).
Proof.
  destruct t as [s|s|s|s]; cbn [task_step]; intros Hstep HI.
  - destruct ev as [ev|]; [|done].
    apply lift_step_Some in Hstep as (m0 & Hstep & Hm). rewrite Hm. cbn.
    split; [|done]. by eapply init_step_Inv.
  - destruct ev as [ev|]; [|done].
    apply lift_step_Some in Hstep as (m0 & Hstep & Hm). rewrite Hm. cbn.
    by eapply acq_step_Inv.
  - apply lift_step_Some in Hstep as (m0 & Hstep & Hm). rewrite Hm. cbn [fst snd].
    destruct s as [s|c|r]; [| |done].
    + assert (released_task (TWithConnection (WithAcquiring s)) ev = None) as ->
        by (by destruct ev).
      destruct s as [s|start|r].
      * destruct ev as [ev|]; [|done]. cbn [with_step] in Hstep.
        apply lift_step_Some in Hstep as (m1 & Hstep & Hm1). rewrite Hm1. cbn.
        by eapply acq_step_Inv.
      * destruct ev as [ev|]; [|done]. cbn [with_step] in Hstep.
        apply lift_step_Some in Hstep as (m1 & Hstep & Hm1). rewrite Hm1. cbn.
        by eapply acq_step_Inv.
      * destruct ev as [[]|]; try done. cbn in Hstep. simplify_eq.
        destruct r; cbn; done.
    + destruct ev as [|r]; [done|]. cbn in Hstep. simplify_eq.
      rewrite withConnection_finally_eq. cbn. split; [|done].
      by apply release_Inv.
  - destruct ev as [ev|]; [|done].
    apply lift_step_Some in Hstep as (m0 & Hstep & Hm). rewrite Hm. cbn.
    split; [|done]. destruct s as [i|r]; [|done]. destruct ev as [|r|]; try done.
    cbn in Hstep. simplify_eq. destruct r; cbn; [done|].
    by apply closeAll_loop_Inv.
Qed.

End ExclusiveProofs.

Section ExclusiveSystem.
Context {T : Type}.

Lemma pending_middle (ts : list (Task T)) tid t t' :
  ts !! tid = Some t →
  let others := (take tid ts ≫= pending) ++ (drop (S tid) ts ≫= pending) in
  ts ≫= pending ≡ₚ pending t ++ others
  ∧ <[ tid := t' ]> ts ≫= pending ≡ₚ pending t' ++ others.
Proof.
  intros Ht others. subst others. split.
  - rewrite <- (take_drop_middle ts tid t Ht) at 1.
    rewrite bind_app, bind_cons. by rewrite Permutation_app_swap_app.
  - rewrite insert_take_drop by (by eapply lookup_lt_Some).
    rewrite bind_app, bind_cons. by rewrite Permutation_app_swap_app.
Qed.

Lemma spawn_Inv (m : M (Task T)) σ H H' :
  sys_Inv σ H →
  (∀ P, Inv (world σ) P H → Inv (snd (m (world σ))) (pending (fst (m (world σ))) ++ P) H') →
  sys_Inv (spawn m σ) H' ∧ last (tasks (spawn m σ)) = Some (fst (m (world σ))).
Proof.
  intros HI Hm. unfold spawn, sys_Inv. specialize (Hm _ HI).
  destruct (m (world σ)) as [t w]. cbn in *. split; [|apply last_snoc].
  rewrite bind_app, bind_cons. cbn [mbind list_bind]. rewrite app_nil_r.
  eapply InvL_perm; [|exact Hm]. apply Permutation_app_comm.
Qed.

Lemma sys_step_Inv (a : Action T) σ σ' H :
  sys_step a σ = Some σ' →
  sys_Inv σ H →
  sys_Inv σ' (held_after a σ σ' H)
  ∧ (∀ c, handed_out a σ' = Some c → c ∉ H).
Proof.
  intros Hstep HI. unfold held_after.
  destruct a as [| |c| | | |tid ev]; cbn [sys_step] in Hstep; simplify_eq;
    cbn [handed_out released_by without with_granted].
  - split; [|done]. eapply spawn_Inv; [done|].
    intros P HP. rewrite bind_ret. cbn. by apply initialize_Inv.
  - edestruct (spawn_Inv (let* s := acquire in ret (TAcquire s)) σ H) as [HI' Hlast];
      [done| |].
    { intros P HP. rewrite bind_ret. cbn. by apply acquire_Inv. }
    rewrite Hlast, bind_ret. cbn. split; [done|].
    by apply (acquire_Inv _ _ _ HI).
  - split; [|done]. by apply release_Inv.
  - edestruct (spawn_Inv (let* s := withConnection in ret (TWithConnection s)) σ H)
      as [HI' Hlast]; [done| |].
    { intros P HP. rewrite bind_ret.
      unfold withConnection. rewrite bind_ret. cbn. by apply acquire_Inv. }
    rewrite Hlast, bind_ret. unfold withConnection. rewrite bind_ret. cbn.
    split; [done|]. by apply (acquire_Inv _ _ _ HI).
  - split; [|done]. by rewrite getStats_eq.
  - split; [|done]. eapply spawn_Inv; [done|].
    intros P HP. rewrite bind_ret. cbn. by apply closeAll_loop_Inv.
  - destruct (tasks σ !! tid) as [t|] eqn:Ht; [|done].
    destruct (task_step t ev) as [m|] eqn:Hm; [|done].
    destruct (pending_middle (tasks σ) tid t (fst (m (world σ))) Ht) as [Hp Hp'].
    destruct (m (world σ)) as [t' w'] eqn:Hmw. simplify_eq. cbn in *.
    rewrite list_lookup_insert_eq by (by eapply lookup_lt_Some). cbn.
    pose proof (task_step_Inv t ev m (world σ) _ H Hm
                  (InvL_perm _ _ _ _ _ Hp HI)) as [HI' Hn].
    rewrite Hmw in HI', Hn. cbn in *. split; [|done].
    eapply InvL_perm; [symmetry; exact Hp'|exact HI'].
Qed.

Lemma sys_run_held_Inv (acts : list (Action T)) : ∀ σ H σ' H',
  sys_Inv σ H →
  sys_run_held acts σ H = Some (σ', H') →
  sys_Inv σ' H'.
Proof.
  induction acts as [|a acts IH]; intros σ H σ' H' HI Hrun.
  { simpl in Hrun. by simplify_eq. }
  simpl in Hrun. destruct (sys_step a σ) as [σ1|] eqn:Hstep; [|done].
  eapply IH; [|exact Hrun]. by apply sys_step_Inv.
Qed.

Lemma new_system_Inv maxSize timeout clock :
  sys_Inv (new_system T maxSize timeout clock) [].
Proof.
  split_and!; cbn.
  - constructor.
  - intros c Hc. by apply elem_of_nil in Hc.
  - intros c Hc. by apply elem_of_nil in Hc.
Qed.

(** Exclusive use: in every interleaving of calls on a new pool, a
    segment never hands out a client that an earlier [acquire] handed
    out and for which [release] has not been called since. *)
Theorem acquire_exclusive maxSize timeout clock (acts : list (Action T)) σ held a σ' c :
  sys_run_held acts (new_system T maxSize timeout clock) [] = Some (σ, held) →
  sys_step a σ = Some σ' →
  handed_out a σ' = Some c →
  c ∉ held.
Proof.
  intros Hrun Hstep Hout.
  pose proof (sys_run_held_Inv _ _ _ _ _ (new_system_Inv _ _ _) Hrun) as HI.
  by destruct (sys_step_Inv _ _ _ _ Hstep HI) as [_ Hn]; apply Hn.
Qed.

End ExclusiveSystem.


(** ** The model on small inputs *)

Example acquire_timed_out_5000 :
  acquire_timed_out 5000 =
    DatabaseError "Failed to acquire connection within 5000ms timeout" None.
Proof. vm_compute. reflexivity. Qed.

Example getStats_sample :
  fst (getStats sample_world) =
    {| Stats.total := 2; Stats.inUse := 1; Stats.available := 1 |}.
Proof. reflexivity. Qed.

Example acquire_sample :
  fst (acquire sample_world) = AcqSettled (Resolved 1%nat)
  ∧ inUse <$> pool (this (snd (acquire sample_world))) = [true; true]
  ∧ lastUsed <$> pool (this (snd (acquire sample_world))) = [5; 12].
Proof. split_and!; vm_compute; reflexivity. Qed.

Example release_sample :
  inUse <$> pool (this (snd (release 0%nat sample_world))) = [false; false]
  ∧ lastUsed <$> pool (this (snd (release 0%nat sample_world))) = [10; 7].
Proof. split_and!; vm_compute; reflexivity. Qed.

Example initialize_new_pool :
  call initialize init_step (replicate 3 (Handshook handshake_ok))
    (new_world 3 5000 Z.of_nat) =
    Some (InitSettled (Resolved tt),
          {| this := {| pool := [ {| client := 0%nat; inUse := false; lastUsed := 0 |};
                                  {| client := 1%nat; inUse := false; lastUsed := 1 |};
                                  {| client := 2%nat; inUse := false; lastUsed := 2 |} ];
                        maxSize := 3; timeout := 5000; initialized := true |};
             clock := Z.of_nat; reads := 3%nat; objects := 3%nat;
             closeCalls := [] |}).
Proof. reflexivity. Qed.

Example closeAll_sample :
  call closeAll close_step [Closed None; Closed None] two_entries_world =
    Some (CloseSettled (Resolved tt),
          {| this := {| pool := []; maxSize := 2; timeout := 5000;
                        initialized := false |};
             clock := λ _, 0; reads := 0%nat; objects := 2%nat;
             closeCalls := [1%nat; 0%nat] |}).
Proof. reflexivity. Qed.

(** In the run of [two_first_acquires] client 0 is held when the last
    segment hands out client 1. *)
Example two_first_acquires_held :
  ∃ σ, sys_run_held (take 5 two_first_acquires)
         (new_system unit 1 5000 (λ _, 0)) [] = Some (σ, [0%nat])
    ∧ ∃ σ', sys_step (Resume 1 (PoolEvent Tick)) σ = Some σ'
      ∧ handed_out (Resume 1 (PoolEvent Tick)) σ' = Some 1%nat.
Proof.
  eexists. split; [vm_compute; reflexivity|].
  eexists. split; vm_compute; reflexivity.
Qed.

(** ** Interleaved calls: the capacity of the pool *)

(** C1 — the code at two inputs on which the capacity invariant fails.
    With [maxSize = 1], two overlapping first [acquire()] calls both run
    [initialize], the array gets two entries and both calls are served:
    two connections are out at once.  With [maxSize = 2] and no
    overlapping call, an [initialize()] that fails after one entry leaves
    that entry behind, the next [acquire()] initializes the pool to three
    entries, and three connections are out at once. *)
Theorem capacity_exceeded :
  (∃ σ, sys_run two_first_acquires (new_system unit 1 5000 (λ _, 0)) = Some σ
     ∧ tasks σ = [ TAcquire (AcqSettled (Resolved 0%nat));
                   TAcquire (AcqSettled (Resolved 1%nat)) ]
     ∧ initialized (this (world σ)) = true
     ∧ maxSize (this (world σ)) = 1
     ∧ length (pool (this (world σ))) = 2%nat
     ∧ Stats.inUse (fst (getStats (world σ))) = 2)
  ∧ (∃ σ, sys_run acquires_after_failure (new_system unit 2 5000 (λ _, 0)) = Some σ
     ∧ tasks σ = [ TInitialize (InitSettled (Rejected
                     (initialize_failed (Foreign 0))));
                   TAcquire (AcqSettled (Resolved 0%nat));
                   TAcquire (AcqSettled (Resolved 2%nat));
                   TAcquire (AcqSettled (Resolved 3%nat)) ]
     ∧ initialized (this (world σ)) = true
     ∧ maxSize (this (world σ)) = 2
     ∧ length (pool (this (world σ))) = 3%nat
     ∧ Stats.inUse (fst (getStats (world σ))) = 3).
Proof.
  split; eexists; (split; [vm_compute; reflexivity|]); vm_compute; done.
Qed.

(** C5 — the code at two inputs on which two calls of [initialize] do not
    leave [maxSize] entries.  With [maxSize = 1], two overlapping calls
    both pass the test of [initialized] and each pushes an entry: two
    entries, both calls resolved.  With [maxSize = 2], a call rejected
    after one entry (the flag staying false) followed by a successful one
    leaves three entries. *)
Theorem initialize_twice_exceeded :
  (∃ σ, sys_run overlapping_initialize (new_system unit 1 5000 (λ _, 0)) = Some σ
     ∧ tasks σ = [ TInitialize (InitSettled (Resolved tt));
                   TInitialize (InitSettled (Resolved tt)) ]
     ∧ initialized (this (world σ)) = true
     ∧ maxSize (this (world σ)) = 1
     ∧ length (pool (this (world σ))) = 2%nat
     ∧ objects (world σ) = 2%nat)
  ∧ (∃ σ, sys_run retried_initialize (new_system unit 2 5000 (λ _, 0)) = Some σ
     ∧ tasks σ = [ TInitialize (InitSettled (Rejected
                     (initialize_failed (Foreign 0))));
                   TInitialize (InitSettled (Resolved tt)) ]
     ∧ initialized (this (world σ)) = true
     ∧ maxSize (this (world σ)) = 2
     ∧ length (pool (this (world σ))) = 3%nat).
Proof.
  split; eexists; (split; [vm_compute; reflexivity|]); vm_compute; done.
Qed.

(** ** Counterexamples to the claims as stated *)

(** C2 as stated fails: a free entry exists, yet [acquire] is rejected
    and takes nothing. *)
Lemma acquire_first_fit_counterexample :
  initialized (this zero_timeout_world) = true
  ∧ first_at is_free (pool (this zero_timeout_world)) 0
      {| client := 0%nat; inUse := false; lastUsed := 0 |}
  ∧ fst (acquire zero_timeout_world) =
      AcqSettled (Rejected (acquire_timed_out 0))
  ∧ this (snd (acquire zero_timeout_world)) = this zero_timeout_world.
Proof.
  split_and!; [done| |vm_compute; reflexivity|done].
  apply (first_at_list_find is_free). reflexivity.
Qed.

(** C7 as stated fails: when the first [close()] is rejected, [closeAll]
    is rejected without ever calling [close()] on the second client, and
    the call accepts no further event. *)
Lemma closeAll_counterexample :
  ∃ w', call closeAll close_step [Closed (Some (Foreign 0))] two_entries_world =
          Some (CloseSettled (Rejected (closeAll_failed (Foreign 0))), w')
    ∧ closeCalls w' = [0%nat]
    ∧ client <$> pool (this w') = [0%nat; 1%nat]
    ∧ ∀ ev, close_step (CloseSettled (Rejected (closeAll_failed (Foreign 0)))) ev = None.
Proof. eexists. split_and!; [vm_compute; reflexivity|done..]. Qed.

(** C9 as stated fails: the timeout is zero, yet [acquire] hands out the
    free connection, because [Date.now()] at the first test of the loop
    guard (3) is earlier than at the reading of [start] (5), so that
    [3 - 5 < 0] holds and the scan is made. *)
Lemma acquire_nonpositive_timeout_counterexample :
  initialized (this backward_clock_world) = true
  ∧ timeout (this backward_clock_world) ≤ 0
  ∧ clock backward_clock_world 1%nat < clock backward_clock_world 0%nat
  ∧ fst (acquire backward_clock_world) = AcqSettled (Resolved 0%nat)
  ∧ pool (this (snd (acquire backward_clock_world))) =
      [ {| client := 0%nat; inUse := true; lastUsed := 4 |} ].
Proof.
  split_and!; [done|done|done|vm_compute; reflexivity|vm_compute; reflexivity].
Qed.

(** ** The theorems at concrete inputs *)

Lemma release_spec_witness :
  (∃ i conn, first_at (is_client 0%nat) (pool (this sample_world)) i conn
     ∧ pool (this (snd (release 0%nat sample_world))) !! i =
         Some {| client := 0%nat; inUse := false; lastUsed := 10 |})
  ∧ release 7%nat sample_world = (tt, sample_world).
Proof.
  split.
  - destruct (proj1 (release_spec 0%nat sample_world)
                {| client := 0%nat; inUse := true; lastUsed := 5 |})
      as (i & conn & Hf & _ & Hi & _).
    + apply list_elem_of_here.
    + reflexivity.
    + exists i, conn. split; [exact Hf|exact Hi].
  - apply (proj2 (release_spec 7%nat sample_world)).
    intros conn Hin. apply list_elem_of_In in Hin.
    destruct Hin as [<-|[<-|[]]]; discriminate.
Defined.

Lemma release_idempotent_witness :
  this (snd (release 0%nat (snd (release 0%nat sample_world)))) =
    with_pool (<[ 0%nat := {| client := 0%nat; inUse := false; lastUsed := 11 |} ]>
                 (pool (this (snd (release 0%nat sample_world)))))
              (this (snd (release 0%nat sample_world))).
Proof.
  pose proof (release_idempotent 0%nat sample_world) as H. cbv zeta in H.
  destruct H as (_ & _ & _ & H).
  apply (H 0%nat {| client := 0%nat; inUse := true; lastUsed := 5 |}).
  apply (first_at_list_find (is_client 0%nat)). reflexivity.
Defined.

Lemma acquire_first_fit_witness :
  fst (acquire_loop 9 sample_world) = AcqSettled (Resolved 1%nat)
  ∧ pool (this (snd (acquire_loop 9 sample_world))) !! 0%nat =
      pool (this sample_world) !! 0%nat.
Proof.
  destruct (acquire_first_fit sample_world) as (_ & _ & _ & _ & _ & H).
  destruct (H 9 1%nat {| client := 1%nat; inUse := false; lastUsed := 7 |})
    as (Hres & _ & _ & Hother).
  - vm_compute. reflexivity.
  - apply (first_at_list_find is_free). reflexivity.
  - split; [exact Hres|]. apply Hother. discriminate.
Defined.


Lemma acquire_nonpositive_timeout_witness :
  (∃ conn, conn ∈ pool (this zero_timeout_world) ∧ inUse conn = false)
  ∧ acquire zero_timeout_world =
      (AcqSettled (Rejected (acquire_timed_out 0)),
       ticked (ticked zero_timeout_world)).
Proof.
  split.
  - eexists. split; [apply list_elem_of_here|reflexivity].
  - apply (acquire_nonpositive_timeout zero_timeout_world).
    + reflexivity.
    + cbn. lia.
    + intros n. cbn. lia.
Defined.

Lemma withConnection_spec_witness :
  call (withConnection (T:=nat)) with_step
    ((PoolEvent <$> []) ++ [PoolEvent Tick; FnSettled (Rejected (Foreign 3))])
    sample_world =
    Some (WithSettled (Rejected (Foreign 3)),
          snd (release 1%nat (snd (acquire sample_world)))).
Proof.
  destruct (withConnection_spec (T:=nat) sample_world) as (_ & _ & H & _).
  destruct (H [] 1%nat (snd (acquire sample_world))) as (_ & Hr).
  - vm_compute. reflexivity.
  - apply Hr.
Defined.

Lemma closeAll_spec_witness :
  ∃ w', call closeAll close_step
          (replicate 1 (Closed None) ++ [Closed (Some (Foreign 0))])
          two_entries_world =
          Some (CloseSettled (Rejected (closeAll_failed (Foreign 0))), w')
    ∧ this w' = this two_entries_world
    ∧ closeCalls w' = [1%nat; 0%nat].
Proof.
  pose proof (closeAll_spec two_entries_world) as H. cbv zeta in H.
  destruct H as (_ & H).
  destruct (H 1%nat (Foreign 0)) as (w' & Hcall & Hthis & Hcc & _).
  - cbn. lia.
  - exists w'. split; [exact Hcall|]. split; [exact Hthis|exact Hcc].
Defined.

(** * Further properties of the pool *)

(** ** The errors of the pool *)

Lemma initialize_loop_config i w :
  maxSize (this (snd (initialize_loop i w))) = maxSize (this w)
  ∧ timeout (this (snd (initialize_loop i w))) = timeout (this w).
Proof.
  destruct (decide (i < maxSize (this w))).
  - by rewrite initialize_loop_next.
  - by rewrite initialize_loop_done by lia.
Qed.

Lemma initialize_resume_step i c h w :
  timeout (this (snd (initialize_resume i c h w))) = timeout (this w)
  ∧ ∀ e, fst (initialize_resume i c h w) = InitSettled (Rejected e) →
         snd (initialize_resume i c h w) = w
         ∧ ∃ cause, createConnection c h = Rejected cause
                    ∧ e = initialize_failed cause.
Proof.
  destruct (createConnection_cases h) as [->|[cause He]].
  - rewrite initialize_resume_ok.
    destruct (initialize_loop_config (i + 1) (pushed c w)) as [_ Ht].
    split; [by rewrite Ht|]. intros e He.
    destruct (decide (i + 1 < maxSize (this (pushed c w)))).
    + by rewrite initialize_loop_next in He.
    + by rewrite initialize_loop_done in He by lia.
  - rewrite (initialize_resume_failed _ _ _ _ _ (He c)). split; [done|].
    intros e [= <-]. split; [done|]. exists cause. by rewrite He.
Qed.

Lemma initialize_enter w :
  timeout (this (snd (initialize w))) = timeout (this w)
  ∧ ∀ e, fst (initialize w) ≠ InitSettled (Rejected e).
Proof.
  unfold initialize, bind, get_this. destruct (initialized (this w)); [done|].
  destruct (initialize_loop_config 0 w) as [_ Ht]. split; [done|].
  intros e. destruct (decide (0 < maxSize (this w))).
  - by rewrite initialize_loop_next.
  - by rewrite initialize_loop_done by lia.
Qed.

Lemma run_initialize_rejected evs : ∀ (i : Z) (c : Surreal) (w : World) e w',
  run init_step (InitCreating i c) evs w = Some (InitSettled (Rejected e), w') →
  ∃ evs0 h cause,
    evs = evs0 ++ [Handshook h]
    ∧ (∀ c', createConnection c' h = Rejected cause)
    ∧ e = initialize_failed cause.
Proof.
  induction evs as [|ev evs IH]; intros i c w e w' Hrun; [done|].
  destruct ev as [h| |]; try done.
  erewrite run_cons in Hrun by reflexivity.
  destruct (createConnection_cases h) as [->|[cause He]].
  - rewrite initialize_resume_ok in Hrun.
    destruct (decide (i + 1 < maxSize (this (pushed c w)))).
    + rewrite initialize_loop_next in Hrun by done. cbn [fst snd] in Hrun.
      apply IH in Hrun as (evs0 & h & cause & -> & ? & ?).
      by exists (Handshook handshake_ok :: evs0), h, cause.
    + rewrite initialize_loop_done in Hrun by lia. cbn [fst snd] in Hrun.
      by apply run_init_settled in Hrun as (_ & ? & _).
  - rewrite (initialize_resume_failed _ _ _ _ _ (He c)) in Hrun.
    cbn [fst snd] in Hrun. apply run_init_settled in Hrun as (-> & [= ->] & _).
    by exists [], h, cause.
Qed.

Lemma acquire_loop_config start w :
  timeout (this (snd (acquire_loop start w))) = timeout (this w)
  ∧ acq_errors_ok (timeout (this w)) (fst (acquire_loop start w)).
Proof.
  destruct (decide (clock w (reads w) - start < timeout (this w))) as [Hg|Hg].
  - destruct (free_cases (pool (this w))) as [(i & a & Hf)|Hall].
    + by rewrite (acquire_loop_found _ _ _ _ Hg Hf).
    + by rewrite (acquire_loop_none _ _ Hg Hall).
  - rewrite acquire_loop_timed_out by lia. split; [done|]. by left.
Qed.

Lemma acq_step_errors s ev m w :
  acq_step s ev = Some m →
  acq_errors_ok (timeout (this w)) s →
  timeout (this (snd (m w))) = timeout (this w)
  ∧ acq_errors_ok (timeout (this w)) (fst (m w)).
Proof.
  destruct s as [[i c|r]|start|r]; cbn [acq_step]; intros Hstep Hok.
  - apply lift_step_Some in Hstep as (m0 & Hstep & Hm). rewrite Hm. cbn [fst snd].
    destruct ev as [h| |]; try done. cbn in Hstep. simplify_eq.
    destruct (initialize_resume_step i c h w) as [Ht He]. split; [done|].
    destruct (fst (initialize_resume i c h w)) as [i' c'|r] eqn:E; [done|].
    destruct r as [u|e]; [done|].
    destruct (He e eq_refl) as (_ & cause & _ & Hc). cbn. eauto.
  - destruct ev; try done. simplify_eq. destruct r as [[]|e]; cbn [acquire_resume].
    + rewrite acquire_body_eq. apply (acquire_loop_config _ (ticked w)).
    + done.
  - destruct ev; try done. simplify_eq. apply acquire_loop_config.
  - done.
Qed.

Lemma run_acquire_errors evs : ∀ (s : Acquire) (w : World) s' w',
  run acq_step s evs w = Some (s', w') →
  acq_errors_ok (timeout (this w)) s →
  timeout (this w') = timeout (this w) ∧ acq_errors_ok (timeout (this w)) s'.
Proof.
  induction evs as [|ev evs IH]; intros s w s' w' Hrun Hok.
  { simpl in Hrun. by simplify_eq. }
  destruct (acq_step s ev) as [m|] eqn:Hstep; [|by simpl in Hrun; rewrite Hstep in Hrun].
  erewrite run_cons in Hrun by exact Hstep.
  destruct (acq_step_errors _ _ _ w Hstep Hok) as [Ht Hok'].
  rewrite <- Ht in Hok'. apply IH in Hrun; [|done]. by rewrite Ht in Hrun.
Qed.

Lemma call_acquire_errors evs w s' w' :
  call acquire acq_step evs w = Some (s', w') →
  timeout (this w') = timeout (this w) ∧ acq_errors_ok (timeout (this w)) s'.
Proof.
  unfold call. destruct (initialized (this w)) eqn:Hinit.
  - rewrite (acquire_initialized _ Hinit).
    destruct (acquire_loop_config (clock w (reads w)) (ticked w)) as [Ht Hok].
    destruct (acquire_loop _ _) as [s1 w1]. cbn in *. intros Hrun.
    rewrite <- Ht in Hok. apply run_acquire_errors in Hrun; [|done].
    by rewrite Ht in Hrun.
  - rewrite (acquire_uninitialized _ Hinit).
    destruct (initialize_enter w) as [Ht Hne]. intros Hrun.
    apply run_acquire_errors in Hrun.
    + by rewrite Ht in Hrun.
    + destruct (fst (initialize w)) as [i' c'|r] eqn:E; [done|].
      destruct r as [u|e]; [done|]. by destruct (Hne e).
Qed.

Lemma run_close_rejected evs : ∀ (i : nat) (w : World) e w',
  run close_step (CloseClosing i) evs w = Some (CloseSettled (Rejected e), w') →
  ∃ evs0 cause, evs = evs0 ++ [Closed (Some cause)] ∧ e = closeAll_failed cause.
Proof.
  induction evs as [|ev evs IH]; intros i w e w' Hrun; [done|].
  destruct ev as [|[cause|]|]; try done.
  - erewrite run_cons in Hrun by reflexivity. cbn in Hrun.
    destruct evs; [|done]. cbn in Hrun. simplify_eq. by exists [], cause.
  - erewrite run_cons in Hrun by reflexivity. cbn [closeAll_resume] in Hrun.
    destruct (pool (this w) !! S i) as [conn|] eqn:Hi.
    + rewrite (closeAll_loop_next _ _ _ Hi) in Hrun. cbn [fst snd] in Hrun.
      apply IH in Hrun as (evs0 & cause & -> & ->).
      by exists (Closed None :: evs0), cause.
    + rewrite (closeAll_loop_done _ _ Hi) in Hrun. cbn [fst snd] in Hrun.
      destruct evs; [|done]. cbn in Hrun. by simplify_eq.
Qed.

(** The pool never lets a backend error out as it is: a rejected
    [initialize] carries ['Failed to initialize connection pool'] around
    the error of the handshake that failed, a rejected [closeAll]
    ['Failed to close connection pool'] around the error of the failed
    [close()], and a rejected [acquire] either the former or the time-out
    error built from the configured timeout. *)
Theorem pool_rejections (w : World) :
  (∀ evs e w',
     call initialize init_step evs w = Some (InitSettled (Rejected e), w') →
     ∃ evs0 h cause,
       evs = evs0 ++ [Handshook h]
       ∧ (∀ c, createConnection c h = Rejected cause)
       ∧ e = initialize_failed cause)
  ∧ (∀ evs e w',
       call acquire acq_step evs w = Some (AcqSettled (Rejected e), w') →
       e = acquire_timed_out (timeout (this w))
       ∨ ∃ cause, e = initialize_failed cause)
  ∧ (∀ evs e w',
       call closeAll close_step evs w = Some (CloseSettled (Rejected e), w') →
       ∃ evs0 cause, evs = evs0 ++ [Closed (Some cause)] ∧ e = closeAll_failed cause).
Proof.
  split_and!.
  - intros evs e w'. unfold call, initialize, bind, get_this.
    destruct (initialized (this w)).
    { intros Hrun. by apply run_init_settled in Hrun as (_ & ? & _). }
    destruct (decide (0 < maxSize (this w))).
    + rewrite initialize_loop_next by done. apply run_initialize_rejected.
    + rewrite initialize_loop_done by lia. intros Hrun.
      by apply run_init_settled in Hrun as (_ & ? & _).
  - intros evs e w' Hcall. by destruct (call_acquire_errors _ _ _ _ Hcall) as [_ ?].
  - intros evs e w'. unfold call, closeAll.
    destruct (pool (this w) !! 0%nat) as [conn|] eqn:Hi.
    + rewrite (closeAll_loop_next _ _ _ Hi). apply run_close_rejected.
    + rewrite (closeAll_loop_done _ _ Hi). destruct evs; [|done].
      cbn. intros; simplify_eq.
Qed.

(** ** How [acquire], [release] and [getStats] compose *)

Lemma count_inUse_insert (l : list PoolConnection) i a e :
  l !! i = Some a →
  (count_inUse (<[ i := e ]> l) + (if inUse a then 1 else 0)
   = count_inUse l + (if inUse e then 1 else 0))%nat.
Proof.
  revert i. induction l as [|b l IH]; intros [|i] Hi; simplify_eq/=.
  - lia.
  - specialize (IH i Hi). lia.
Qed.

Lemma first_free_is_client (l : list PoolConnection) i a :
  NoDup (client <$> l) → l !! i = Some a →
  first_at (is_client (client a)) l i a.
Proof.
  intros Hnd Hi. split_and!; [done..|].
  intros j b Hj Hlt Hb. unfold is_client in Hb.
  assert (j = i); [|lia].
  apply (NoDup_lookup (client <$> l) j i (client a)); [done| |].
  - rewrite list_lookup_fmap, Hj. cbn. by rewrite Hb.
  - by rewrite list_lookup_fmap, Hi.
Qed.

(** A connection taken by a scan of [acquire] and given back by
    [release] leaves the pool as it was, but for the [lastUsed] of its
    entry: same clients, same flags, same [getStats]. *)
Theorem acquire_release_roundtrip (start : Z) (w : World) i a :
  NoDup (client <$> pool (this w)) →
  clock w (reads w) - start < timeout (this w) →
  first_at is_free (pool (this w)) i a →
  let w1 := snd (acquire_loop start w) in
  let w2 := snd (release (client a) w1) in
  fst (acquire_loop start w) = AcqSettled (Resolved (client a))
  ∧ this w2 =
      with_pool (<[ i := {| client := client a; inUse := false;
                            lastUsed := clock w (S (S (reads w))) |} ]>
                   (pool (this w))) (this w)
  ∧ client <$> pool (this w2) = client <$> pool (this w)
  ∧ inUse <$> pool (this w2) = inUse <$> pool (this w)
  ∧ fst (getStats w2) = fst (getStats w).
Proof.
  intros Hnd Hg Hf w1 w2. subst w1 w2.
  rewrite (acquire_loop_found _ _ _ _ Hg Hf). cbn [fst snd].
  destruct Hf as (Hi & Hfree & _). unfold is_free in Hfree.
  set (taken := {| client := client a; inUse := true;
                   lastUsed := clock w (S (reads w)) |}).
  assert (first_at (is_client (client a))
            (<[ i := taken ]> (pool (this w))) i taken) as Hf'.
  { apply (first_free_is_client _ i taken).
    - unfold taken. by rewrite (fmap_client_insert _ _ _ _ _ Hi).
    - apply list_lookup_insert_eq. by eapply lookup_lt_Some. }
  rewrite (release_found (client a) _ i taken) by exact Hf'.
  assert (inUse <$> <[ i := {| client := client a; inUse := false;
                               lastUsed := clock w (S (S (reads w))) |} ]>
                      (pool (this w)) = inUse <$> pool (this w)) as Hflags.
  { rewrite list_fmap_insert. cbn. apply list_insert_id.
    by rewrite list_lookup_fmap, Hi, <- Hfree. }
  split_and!.
  - done.
  - cbn. by rewrite list_insert_insert_eq.
  - cbn. rewrite list_insert_insert_eq. by apply fmap_client_insert.
  - cbn. by rewrite list_insert_insert_eq.
  - apply getStats_same_flags. cbn. by rewrite list_insert_insert_eq.
Qed.

(** A scan of [acquire] that hands out a connection moves one unit of
    [getStats] from [available] to [inUse]; [release] of a tracked client
    moves it back if the entry was checked out and changes nothing if it
    was not; [total] never changes. *)
Theorem getStats_acquire_release (w : World) :
  (∀ start i a,
     clock w (reads w) - start < timeout (this w) →
     first_at is_free (pool (this w)) i a →
     let s := fst (getStats w) in
     let s' := fst (getStats (snd (acquire_loop start w))) in
     Stats.total s' = Stats.total s
     ∧ Stats.inUse s' = Stats.inUse s + 1
     ∧ Stats.available s' = Stats.available s - 1)
  ∧ (∀ c i conn,
       first_at (is_client c) (pool (this w)) i conn →
       let s := fst (getStats w) in
       let s' := fst (getStats (snd (release c w))) in
       Stats.total s' = Stats.total s
       ∧ Stats.inUse s' = Stats.inUse s - (if inUse conn then 1 else 0)
       ∧ Stats.available s' = Stats.available s + (if inUse conn then 1 else 0)).
Proof.
  split.
  - intros start i a Hg Hf. rewrite (acquire_loop_found _ _ _ _ Hg Hf).
    rewrite !getStats_eq. cbn. rewrite length_insert.
    destruct Hf as (Hi & Hfree & _). unfold is_free in Hfree.
    pose proof (count_inUse_insert _ _ _
      {| client := client a; inUse := true; lastUsed := clock w (S (reads w)) |} Hi) as Hc.
    rewrite Hfree in Hc. cbn in Hc. split_and!; lia.
  - intros c i conn Hf. rewrite (release_found _ _ _ _ Hf).
    rewrite !getStats_eq. cbn. rewrite length_insert.
    destruct Hf as (Hi & _).
    pose proof (count_inUse_insert _ _ _
      {| client := c; inUse := false; lastUsed := clock w (reads w) |} Hi) as Hc.
    cbn in Hc. destruct (inUse conn); split_and!; lia.
Qed.

(** On an exhausted pool, [release(c)] of a tracked client lets the next
    scan of a waiting [acquire] obtain exactly [c]. *)
Theorem release_then_scan (start : Z) (c : Surreal) (w : World) i conn :
  Forall (λ conn, inUse conn = true) (pool (this w)) →
  first_at (is_client c) (pool (this w)) i conn →
  clock w (S (reads w)) - start < timeout (this w) →
  fst (acquire_loop start (snd (release c w))) = AcqSettled (Resolved c)
  ∧ inUse <$> pool (this (snd (acquire_loop start (snd (release c w))))) =
      inUse <$> pool (this w).
Proof.
  intros Hall Hf Hg. rewrite (release_found _ _ _ _ Hf).
  destruct Hf as (Hi & Hc & _).
  set (freed := {| client := c; inUse := false; lastUsed := clock w (reads w) |}).
  rewrite (acquire_loop_found _ _ i freed).
  - cbn. split; [done|]. rewrite list_insert_insert_eq, list_fmap_insert. cbn.
    apply list_insert_id. rewrite list_lookup_fmap, Hi. cbn.
    f_equal. by apply (proj1 (Forall_lookup _ _) Hall i conn).
  - exact Hg.
  - cbn. split_and!.
    + apply list_lookup_insert_eq. by eapply lookup_lt_Some.
    + done.
    + intros j b Hj Hlt. rewrite list_lookup_insert_ne in Hj by lia.
      unfold is_free. rewrite (proj1 (Forall_lookup _ _) Hall j b Hj). done.
Qed.

(** ** [closeAll] followed by [acquire] *)

Lemma run_acq_initializing evs : ∀ (s : Initialize) (w : World) s' w',
  run init_step s evs w = Some (s', w') →
  run acq_step (AcqInitializing s) evs w = Some (AcqInitializing s', w').
Proof.
  induction evs as [|ev evs IH]; intros s w s' w' Hrun.
  { simpl in Hrun. by simplify_eq. }
  destruct (init_step s ev) as [m|] eqn:Hstep; [|by simpl in Hrun; rewrite Hstep in Hrun].
  erewrite run_cons in Hrun by exact Hstep.
  erewrite (run_cons acq_step _ _ _ _ (let* s := m in ret (AcqInitializing s))).
  - rewrite bind_ret. cbn [fst snd]. by apply IH.
  - destruct s as [i c|r]; [|done]. cbn [acq_step]. by rewrite Hstep.
Qed.

Lemma elem_of_insert_inv {A} (l : list A) i x y :
  y ∈ <[ i := x ]> l → y = x ∨ y ∈ l.
Proof.
  revert i. induction l as [|a l IH]; intros [|i]; cbn; rewrite ?elem_of_cons;
    try tauto.
  intros [->|H]; [tauto|]. destruct (IH _ H); tauto.
Qed.

Lemma created_clients clock k : ∀ c next r conn,
  conn ∈ created clock k c next r →
  client conn = c ∨ (next ≤ client conn)%nat.
Proof.
  induction k as [|k IH]; intros c next r conn; cbn.
  - by intros ?%elem_of_nil.
  - intros [->|Hin]%elem_of_cons; [by left|].
    right. destruct (IH _ _ _ _ Hin); lia.
Qed.

Lemma count_inUse_created clock k c next r :
  count_inUse (created clock k c next r) = 0%nat.
Proof. revert c next r. induction k as [|k IH]; intros; cbn; [done|]. apply IH. Qed.

(** After a [closeAll] whose closes all succeed the pool can be used
    again: the next [acquire] initializes it anew and, its handshakes
    succeeding, resolves with a client constructed after the teardown,
    out of a pool of [maxSize] entries, none of which is a client
    constructed before: a [release] of such a client, still held by a
    caller from before the teardown, changes nothing. *)
Theorem acquire_after_closeAll (w : World) :
  0 < maxSize (this w) →
  let n := Z.to_nat (maxSize (this w)) in
  clock w (S (reads w + n)) - clock w (reads w + n)%nat < timeout (this w) →
  ∃ w1 w2,
    call closeAll close_step (replicate (length (pool (this w))) (Closed None)) w =
      Some (CloseSettled (Resolved tt), w1)
    ∧ call acquire acq_step (replicate n (Handshook handshake_ok) ++ [Tick]) w1 =
        Some (AcqSettled (Resolved (objects w)), w2)
    ∧ initialized (this w2) = true
    ∧ length (pool (this w2)) = n
    ∧ Stats.inUse (fst (getStats w2)) = 1
    ∧ (∀ c, (c < objects w)%nat → release c w2 = (tt, w2)).
Proof.
  intros Hmax n Hg. destruct n as [|k] eqn:En; [lia|].
  eexists _, _. split; [apply call_closeAll_all|].
  set (w1 := torn_down _).
  unfold call. rewrite (acquire_uninitialized w1) by done.
  unfold initialize, bind, get_this. cbn [initialized this w1 torn_down].
  rewrite initialize_loop_next by done. cbn [fst snd].
  rewrite run_app.
  erewrite run_acq_initializing; [|apply run_initialize_all; cbn; lia].
  run_step. cbn [acquire_resume]. rewrite acquire_body_eq.
  set (W := after_created _ _ _ _).
  set (first := {| client := objects w; inUse := false; lastUsed := clock w (reads w) |}).
  assert (pool (this (ticked W)) !! 0%nat = Some first) as H0 by done.
  rewrite (acquire_loop_found _ (ticked W) 0 first).
  - cbn [fst snd]. split; [subst first W w1; reflexivity|]. split; [done|].
    split; [|split].
    + cbn. by rewrite length_created.
    + rewrite getStats_eq. cbn.
      by rewrite count_inUse_created.
    + intros c Hc. apply release_unknown. cbn.
      intros conn [->|Hin]%elem_of_cons; cbn; [lia|].
      apply created_clients in Hin. lia.
  - cbn. cbn in Hg. by replace (reads w + S k)%nat with (S (reads w + k)) in * by lia.
  - split_and!; [done..|]. intros; lia.
Qed.

(** After a [closeAll] that failed at entry [k] the pool is still
    initialized and still holds every entry, so [acquire] goes on handing
    out clients whose [close()] has already been called. *)
Theorem acquire_after_failed_closeAll (w : World) k e i a :
  initialized (this w) = true →
  first_at is_free (pool (this w)) i a →
  (i ≤ k)%nat → (k < length (pool (this w)))%nat →
  clock w (S (reads w)) - clock w (reads w) < timeout (this w) →
  ∃ w1,
    call closeAll close_step (replicate k (Closed None) ++ [Closed (Some e)]) w =
      Some (CloseSettled (Rejected (closeAll_failed e)), w1)
    ∧ fst (acquire w1) = AcqSettled (Resolved (client a))
    ∧ client a ∈ closeCalls w1.
Proof.
  intros Hinit Hf Hik Hk Hg. eexists. split; [by apply call_closeAll_failing|].
  set (w1 := with_closeCalls _ w). split.
  - rewrite (acquire_initialized w1) by done.
    by rewrite (acquire_loop_found _ (ticked w1) i a).
  - cbn. apply elem_of_app. left.
    apply list_elem_of_In. rewrite <- in_rev. apply list_elem_of_In.
    apply list_elem_of_fmap. exists a. split; [done|]. apply list_elem_of_lookup. exists i.
    destruct Hf as (Hi & _). rewrite lookup_take_lt by lia. done.
Qed.

(** ** Invariants of the interleaved calls *)

Lemma sys_run_held_total {T} (acts : list (Action T)) : ∀ σ σ' H,
  sys_run acts σ = Some σ' → ∃ H', sys_run_held acts σ H = Some (σ', H').
Proof.
  induction acts as [|a acts IH]; intros σ σ' H Hrun; simpl in *.
  - simplify_eq. eauto.
  - destruct (sys_step a σ) as [σ1|]; [|done]. by apply IH.
Qed.

(** In every interleaving of calls on a new pool the entries hold
    pairwise distinct clients, each one an object built by the pool
    itself, and no more entries are checked out than there are. *)
Theorem pool_clients_distinct {T} maxSize timeout clock (acts : list (Action T)) σ :
  sys_run acts (new_system T maxSize timeout clock) = Some σ →
  NoDup (client <$> pool (this (world σ)))
  ∧ (∀ conn, conn ∈ pool (this (world σ)) → (client conn < objects (world σ))%nat)
  ∧ (count_inUse (pool (this (world σ))) ≤ length (pool (this (world σ))))%nat.
Proof.
  intros Hrun.
  destruct (sys_run_held_total _ _ _ [] Hrun) as [H' Hrun'].
  destruct (sys_run_held_Inv _ _ _ _ _ (new_system_Inv _ _ _) Hrun')
    as (Hnd & Hlt & _).
  split_and!.
  - by apply NoDup_app in Hnd as (? & _).
  - intros conn Hin. apply Hlt. apply elem_of_app. left.
    apply list_elem_of_fmap. eauto.
  - apply count_inUse_le.
Qed.

(** ** [withConnection] gives back what it takes *)

Lemma acquire_loop_with_inv {T} start w :
  initialized (this w) = true →
  with_inv (T:=T) (inUse <$> pool (this w)) (client <$> pool (this w))
    (snd (acquire_loop start w)) (WithAcquiring (fst (acquire_loop start w))).
Proof.
  intros Hinit.
  destruct (decide (clock w (reads w) - start < timeout (this w))) as [Hg|Hg].
  - destruct (free_cases (pool (this w))) as [(i & a & Hf)|Hall].
    + rewrite (acquire_loop_found _ _ _ _ Hg Hf). destruct Hf as (Hi & Hfree & _).
      split_and!; [by apply fmap_client_insert|done|]. cbn. exists i. split_and!.
      * by rewrite list_lookup_fmap, Hi.
      * by rewrite list_lookup_fmap, Hi, <- Hfree.
      * by rewrite list_fmap_insert.
    + by rewrite (acquire_loop_none _ _ Hg Hall).
  - by rewrite acquire_loop_timed_out by lia.
Qed.

Lemma with_step_inv {T} F C (s : WithConnection T) ev m w :
  NoDup C →
  with_step s ev = Some m →
  with_inv F C w s →
  with_inv F C (snd (m w)) (fst (m w)).
Proof.
  intros Hnd Hstep (HC & Hinit & Hs).
  destruct s as [[s|start|r]|c|r]; [done| | | |done].
  - destruct ev as [[| |]|]; try done. cbn in Hstep. simplify_eq.
    rewrite bind_ret. cbn [fst snd]. by apply acquire_loop_with_inv.
  - destruct ev as [[| |]|]; try done. cbn in Hstep. simplify_eq.
    destruct r as [c|e]; by cbn.
  - destruct ev as [|r]; [done|]. cbn in Hstep. simplify_eq.
    rewrite withConnection_finally_eq. cbn [fst snd].
    destruct Hs as (i & Hi & HF & Hflags).
    rewrite list_lookup_fmap in Hi.
    destruct (pool (this w) !! i) as [conn|] eqn:Hconn; [|done].
    cbn in Hi. injection Hi as <-.
    rewrite (release_found _ _ i conn) by (by apply first_free_is_client).
    split_and!; [by apply fmap_client_insert|done|]. cbn.
    rewrite list_fmap_insert, Hflags, list_insert_insert_eq. cbn.
    by apply list_insert_id.
Qed.

Lemma run_with_inv {T} F C evs : ∀ (s : WithConnection T) (w : World) s' w',
  NoDup C →
  run with_step s evs w = Some (s', w') →
  with_inv F C w s →
  with_inv F C w' s'.
Proof.
  induction evs as [|ev evs IH]; intros s w s' w' Hnd Hrun HI.
  { simpl in Hrun. by simplify_eq. }
  destruct (with_step s ev) as [m|] eqn:Hstep; [|by simpl in Hrun; rewrite Hstep in Hrun].
  erewrite run_cons in Hrun by exact Hstep.
  eapply IH; [done|exact Hrun|]. by eapply with_step_inv.
Qed.

(** [withConnection] run on an initialized pool leaves no connection
    checked out: when the call has settled, whether by the time-out of
    [acquire], by the result of the callback or by its error, every entry
    has the client and the [inUse] flag it had before the call. *)
Theorem withConnection_restores {T} (evs : list (WithEvent T)) (w : World) r w' :
  initialized (this w) = true →
  NoDup (client <$> pool (this w)) →
  call withConnection with_step evs w = Some (WithSettled r, w') →
  client <$> pool (this w') = client <$> pool (this w)
  ∧ inUse <$> pool (this w') = inUse <$> pool (this w)
  ∧ fst (getStats w') = fst (getStats w).
Proof.
  intros Hinit Hnd Hcall. unfold call in Hcall.
  unfold withConnection in Hcall. rewrite bind_ret in Hcall.
  rewrite (acquire_initialized _ Hinit) in Hcall.
  eapply (run_with_inv _ _ _ _ _ _ _ Hnd) in Hcall;
    [|apply (acquire_loop_with_inv _ (ticked w) Hinit)].
  destruct Hcall as (HC & _ & HF). cbn in HC, HF.
  split_and!; [done..|]. by apply getStats_same_flags.
Qed.

(** * The client singleton (src/database/client.ts) *)

Lemma run_db_init_settled r rs s k s' :
  run_db initDatabase_resume (DbInitSettled r) rs s = Some (k, s') →
  rs = [] ∧ k = DbInitSettled r ∧ s' = s.
Proof. destruct rs as [|[e|] rs]; simpl; intros; by simplify_eq. Qed.

(** What a handshake run alone keeps true: [db] is the client [c], and
    the calls made are the first steps of the handshake on [c]. *)
Lemma run_db_init_alone rs : ∀ k s k' s' c,
  db s = Some c →
  run_db initDatabase_resume k rs s = Some (k', s') →
  db s' = Some c ∧ built s' = built s.
Proof.
  induction rs as [|r rs IH]; intros k s k' s' c Hdb Hrun.
  { simpl in Hrun. by simplify_eq. }
  simpl in Hrun.
  destruct k as [| | |r0]; destruct r as [e|]; simpl in Hrun; try done;
    unfold call_on_db in Hrun; rewrite ?Hdb in Hrun;
    (eapply IH in Hrun; [|by cbn]); by cbn in Hrun.
Qed.

(** Once [initDatabase] has been called, the client it constructed is
    what [getDatabase] and every later [initDatabase] give, at once and
    without a call to the backend, whether the handshake is still going
    on, has succeeded or has failed: a failed handshake is not retried.
    Run alone, the call resolves only after three fulfilled steps, and is
    rejected with the error of the step that failed, wrapped. *)
Theorem initDatabase_sets_db (s : ClientModule) rs k s' :
  db s = None →
  call_db initDatabase initDatabase_resume rs s = Some (k, s') →
  let c := built s in
  db s' = Some c ∧ built s' = S c
  ∧ getDatabase s' = Resolved c
  ∧ initDatabase s' = (DbInitSettled (Resolved (Some c)), s')
  ∧ (∀ r, k = DbInitSettled (Resolved r) → r = Some c ∧ rs = [None; None; None])
  ∧ (∀ e, k = DbInitSettled (Rejected e) →
       ∃ rs0 cause, rs = rs0 ++ [Some cause] ∧ e = initDatabase_failed cause).
Proof.
  intros Hdb Hcall c. unfold call_db, initDatabase in Hcall. rewrite Hdb in Hcall.
  cbn in Hcall.
  assert (db s' = Some c ∧ built s' = S c) as [Hdb' Hb].
  { eapply run_db_init_alone in Hcall; [exact Hcall|done]. }
  split_and!; [done|done| | | |].
  - unfold getDatabase. by rewrite Hdb'.
  - unfold initDatabase. by rewrite Hdb'.
  - intros r ->.
    destruct rs as [|[e|] [|[e'|] [|[e''|] rs]]]; simpl in Hcall; simplify_eq;
      try (by destruct rs as [|[?|] ?]).
    apply run_db_init_settled in Hcall as (Hrs & Hk & _). by simplify_eq.
  - intros e ->.
    destruct rs as [|[e1|] rs]; simpl in Hcall; simplify_eq.
    { apply run_db_init_settled in Hcall as (-> & [= ->] & _). by exists [], e1. }
    destruct rs as [|[e2|] rs]; simpl in Hcall; simplify_eq.
    { apply run_db_init_settled in Hcall as (-> & [= ->] & _). by exists [None], e2. }
    destruct rs as [|[e3|] rs]; simpl in Hcall; simplify_eq.
    { apply run_db_init_settled in Hcall as (-> & [= ->] & _).
      by exists [None; None], e3. }
    apply run_db_init_settled in Hcall as (_ & ? & _). done.
Qed.

(** [closeDatabase] does nothing when there is no client.  Otherwise it
    calls [close()] on the client; if that succeeds [db] is reset, so that
    [getDatabase] throws, [pingDatabase] answers [false] and the next
    [initDatabase] constructs a new client; if it fails the call is
    rejected with the cause wrapped and [db] keeps the client. *)
Theorem closeDatabase_spec (s : ClientModule) :
  (db s = None → closeDatabase s = (DbCloseSettled (Resolved tt), s))
  ∧ (∀ c, db s = Some c →
       ∃ s1,
         call_db closeDatabase closeDatabase_resume [None] s =
           Some (DbCloseSettled (Resolved tt), s1)
         ∧ db s1 = None
         ∧ called s1 = (c, Close) :: called s
         ∧ getDatabase s1 = Rejected not_initialized
         ∧ pingDatabase s1 = (DbPingSettled (Resolved false), s1)
         ∧ fst (initDatabase s1) = DbConnecting
         ∧ db (snd (initDatabase s1)) = Some (built s)
         ∧ built (snd (initDatabase s1)) = S (built s))
  ∧ (∀ c e, db s = Some c →
       ∃ s1,
         call_db closeDatabase closeDatabase_resume [Some e] s =
           Some (DbCloseSettled (Rejected (closeDatabase_failed e)), s1)
         ∧ db s1 = Some c
         ∧ called s1 = (c, Close) :: called s
         ∧ getDatabase s1 = Resolved c).
Proof.
  split_and!.
  - intros Hdb. unfold closeDatabase. by rewrite Hdb.
  - intros c Hdb. unfold call_db, closeDatabase. rewrite Hdb. cbn.
    eexists. split; [done|]. by cbn.
  - intros c e Hdb. unfold call_db, closeDatabase. rewrite Hdb. cbn.
    eexists. split; [done|]. by cbn.
Qed.

(** [pingDatabase] is never rejected and never changes [db]; it answers
    [true] exactly when there is a client and its query is fulfilled. *)
Theorem pingDatabase_spec (s : ClientModule) rs r s' :
  call_db pingDatabase pingDatabase_resume rs s = Some (DbPingSettled r, s') →
  db s' = db s
  ∧ ∃ b, r = Resolved b ∧ (b = true ↔ is_Some (db s) ∧ rs = [None]).
Proof.
  unfold call_db, pingDatabase, getDatabase.
  destruct (db s) as [c|] eqn:Hdb.
  - destruct rs as [|[e|] [|r' rs]]; simpl; intros; simplify_eq; cbn;
      (split; [done|]); eexists; (split; [done|]);
      (split; [intros ?; first [done|split; [by eexists|done]]|by intros [_ ?]]).
  - destruct rs as [|r' rs]; simpl; intros; simplify_eq.
    split; [done|]. exists false. split; [done|]. split; [done|].
    intros [[c Hc] _]. done.
Qed.

(** If a [closeDatabase] is called and its [close()] fulfilled while an
    [initDatabase] is waiting for a step of its handshake, then that
    [initDatabase], when its step is fulfilled, is rejected with the
    [TypeError] of a call on [null], wrapped, or — when it was waiting for
    the last step — resolves with [null]. *)
Theorem initDatabase_during_close (σ : DbSystem) tid k c :
  db_tasks σ !! tid = Some (TInitDatabase k) →
  (∀ r, k ≠ DbInitSettled r) →
  db (module σ) = Some c →
  ∃ σ',
    db_run [Call_closeDatabase; Resume_db (length (db_tasks σ)) None;
            Resume_db tid None] σ = Some σ'
    ∧ db (module σ') = None
    ∧ called (module σ') = (c, Close) :: called (module σ)
    ∧ db_tasks σ' !! tid =
        Some (TInitDatabase (DbInitSettled
          match k with
          | DbSelecting => Resolved None
          | _ => Rejected (initDatabase_failed null_dereference)
          end)).
Proof.
  intros Htid Hk Hdb.
  assert (Hlt : (tid < length (db_tasks σ))%nat) by by eapply lookup_lt_Some.
  unfold db_run, db_step at 1, closeDatabase. rewrite Hdb.
  unfold db_step at 1. cbn [module db_tasks got].
  rewrite list_lookup_middle by done.
  cbn [db_task_resume closeDatabase_resume built called].
  rewrite insert_app_r_alt, Nat.sub_diag by done. cbn [insert list_insert].
  unfold db_step. cbn [module db_tasks got].
  rewrite lookup_app_l, Htid by done.
  assert (Hlen : (tid < length (db_tasks σ ++
      [TCloseDatabase (DbCloseSettled (Resolved tt))]))%nat)
    by (rewrite length_app; lia).
  destruct k as [| | |r]; [| | |by destruct (Hk r)];
    cbn; (eexists; split; [done|]); cbn;
    by rewrite list_lookup_insert_eq.
Qed.

(** ** Interleaved calls of the client module *)

Lemma closing_snoc ts t :
  closing (ts ++ [t]) = (closing ts + if is_closing t then 1 else 0)%nat.
Proof.
  unfold closing. rewrite filter_app, length_app. f_equal.
  rewrite filter_cons, filter_nil. by destruct (is_closing t); cbn.
Qed.

Lemma closing_insert ts i t t' :
  ts !! i = Some t →
  (closing (<[ i := t' ]> ts) + (if is_closing t then 1 else 0) =
   closing ts + if is_closing t' then 1 else 0)%nat.
Proof.
  unfold closing. revert i. induction ts as [|a ts IH]; intros [|i] H;
    simplify_eq/=.
  - rewrite !filter_cons.
    repeat case_decide; destruct (is_closing t), (is_closing t');
      try done; cbn; lia.
  - specialize (IH _ H). rewrite !filter_cons.
    case_decide; cbn; lia.
Qed.

Lemma closes_cons s s' c m :
  called s' = (c, m) :: called s →
  closes s' = ((if is_close (c, m) then 1 else 0) + closes s)%nat.
Proof.
  unfold closes. intros ->. rewrite filter_cons.
  by case_decide as H; destruct (is_close (c, m)).
Qed.

Lemma closes_same s s' : called s' = called s → closes s' = closes s.
Proof. unfold closes. by intros ->. Qed.

Lemma call_on_db_Inv m next s k s' ts ts' g g' :
  m ≠ Close →
  call_on_db m next s = (k, s') →
  closing ts' = closing ts →
  db_Inv {| module := s; db_tasks := ts; got := g |} →
  db_Inv {| module := s'; db_tasks := ts'; got := g' |}.
Proof.
  unfold db_Inv, call_on_db. cbn [module db_tasks got].
  intros Hm Heq -> (Hlast & Hcalled & Hle).
  destruct (db s) as [c|] eqn:Hdb; simplify_eq; [|by rewrite Hdb].
  erewrite (closes_cons s) by reflexivity. cbn [db built called].
  split_and!; [done| |destruct m; cbn; lia].
  intros c' m' [[= -> ->]|H]%elem_of_cons; [|by eapply Hcalled].
  rewrite (Hlast _ eq_refl). lia.
Qed.

Lemma initDatabase_Inv s k s' ts g :
  initDatabase s = (k, s') →
  db_Inv {| module := s; db_tasks := ts; got := g |} →
  db_Inv {| module := s'; db_tasks := ts ++ [TInitDatabase k]; got := g |}.
Proof.
  unfold initDatabase. intros Heq Hinv.
  assert (Hc : closing (ts ++ [TInitDatabase k]) = closing ts)
    by (rewrite closing_snoc; cbn; lia).
  destruct (db s) as [c|] eqn:Hdb.
  - simplify_eq. destruct Hinv as (Hlast & Hcalled & Hle).
    unfold db_Inv. cbn [module db_tasks got]. by rewrite Hc.
  - eapply (call_on_db_Inv Connect DbConnecting _ _ _ ts _ g); [done|done|done|].
    destruct Hinv as (Hlast & Hcalled & Hle). cbn [module db_tasks got] in *.
    rewrite Hdb in Hle. unfold db_Inv. cbn [module db_tasks got db built called].
    rewrite (closes_same s) by done.
    split_and!; [by intros ? [= <-]| |lia].
    intros c m H. apply Hcalled in H. lia.
Qed.

Lemma db_step_Inv a σ σ' : db_step a σ = Some σ' → db_Inv σ → db_Inv σ'.
Proof.
  destruct σ as [s ts g]. destruct a as [| | | |tid r]; cbn [db_step module db_tasks got].
  - destruct (initDatabase s) as [k s1] eqn:Hi. intros [= <-].
    by apply initDatabase_Inv.
  - by intros [= <-].
  - unfold closeDatabase, db_Inv. cbn [module db_tasks got].
    destruct (db s) as [c|] eqn:Hdb; intros [= <-] (Hlast & Hcalled & Hle);
      cbn [module db_tasks got]; rewrite closing_snoc; cbn [is_closing].
    + erewrite (closes_cons s) by reflexivity. cbn [db built called is_close snd].
      rewrite ?Hdb in *. split_and!; [done| |lia].
      intros c' m [[= -> ->]|H]%elem_of_cons; [|by eapply Hcalled].
      rewrite (Hlast _ eq_refl). lia.
    + rewrite Hdb. split_and!; [done|done|lia].
  - unfold pingDatabase, getDatabase, db_Inv. cbn [module db_tasks got].
    destruct (db s) as [c|] eqn:Hdb; intros [= <-] (Hlast & Hcalled & Hle);
      cbn [module db_tasks got]; rewrite closing_snoc; cbn [is_closing].
    + erewrite (closes_cons s) by reflexivity. cbn [db built called is_close snd].
      rewrite ?Hdb in *. split_and!; [done| |lia].
      intros c' m [[= -> ->]|H]%elem_of_cons; [|by eapply Hcalled].
      rewrite (Hlast _ eq_refl). lia.
    + rewrite Hdb. split_and!; [done|done|lia].
  - destruct (ts !! tid) as [t|] eqn:Ht; [|done].
    destruct (db_task_resume t r s) as [[t' s1]|] eqn:Hr; [|done].
    intros [= <-] Hinv.
    pose proof (closing_insert ts tid t t' Ht) as Hc.
    destruct t as [k|k|k]; cbn [db_task_resume] in Hr.
    + destruct (initDatabase_resume k r s) as [[k' s2]|] eqn:Hk; simplify_eq.
      cbn [is_closing] in Hc.
      assert (Hc' : closing (<[tid:=TInitDatabase k']> ts) = closing ts) by lia.
      destruct k as [| | |?], r as [e|]; cbn in Hk; simplify_eq;
        try (by eapply call_on_db_Inv; [|eassumption|eassumption|eassumption]);
        destruct Hinv as (Hlast & Hcalled & Hle); unfold db_Inv;
        cbn [module db_tasks got] in *; by rewrite Hc'.
    + destruct (closeDatabase_resume k r s) as [[k' s2]|] eqn:Hk; simplify_eq.
      destruct Hinv as (Hlast & Hcalled & Hle). unfold db_Inv.
      cbn [module db_tasks got] in *.
      destruct k as [|?], r as [e|]; cbn in Hk; simplify_eq; cbn [is_closing] in Hc.
      * split_and!; [done|done|lia].
      * rewrite (closes_same s) by done. cbn [db built called].
        split_and!; [done|done|]. destruct (db s); lia.
    + destruct (pingDatabase_resume k r s) as [[k' s2]|] eqn:Hk; simplify_eq.
      destruct Hinv as (Hlast & Hcalled & Hle). unfold db_Inv.
      cbn [module db_tasks got] in *.
      destruct k as [|?], r as [e|]; cbn in Hk; simplify_eq; cbn [is_closing] in Hc;
        (split_and!; [done|done|lia]).
Qed.

Lemma db_run_Inv acts : ∀ σ σ',
  db_run acts σ = Some σ' → db_Inv σ → db_Inv σ'.
Proof.
  induction acts as [|a acts IH]; intros σ σ'; cbn.
  - by intros [= <-].
  - destruct (db_step a σ) as [σ1|] eqn:Hs; [|done].
    intros Hrun Hinv. eapply IH; [done|]. by eapply db_step_Inv.
Qed.

(** In every interleaving of calls of the module, [db] is the client
    constructed last, each call is made on a client constructed before,
    and the clients constructed are at most one more than the [close()]
    calls that have settled: a second client is constructed only after a
    [closeDatabase]. *)
Theorem client_constructions (acts : list DbAction) (σ : DbSystem) :
  db_run acts new_db_system = Some σ →
  let s := module σ in
  (∀ c, db s = Some c → built s = S c)
  ∧ (∀ c m, (c, m) ∈ called s → (c < built s)%nat)
  ∧ (built s + closing (db_tasks σ) ≤ (if db s is Some _ then 1 else 0) + closes s)%nat.
Proof.
  intros Hrun. eapply db_run_Inv; [done|].
  unfold db_Inv, closes, closing. cbn. split_and!; [done| |lia].
  by intros c m H%elem_of_nil.
Qed.

Lemma db_step_single a σ σ' :
  a ≠ Call_closeDatabase →
  db_step a σ = Some σ' → db_single σ → db_single σ'.
Proof.
  destruct σ as [s ts g]. unfold db_single.
  destruct a as [| | | |tid r]; cbn [db_step module db_tasks got]; intros Ha;
    [| |done| |].
  - unfold initDatabase, call_on_db. cbn [db built called].
    destruct (db s) as [c|] eqn:Hdb; intros [= <-]; cbn [module db_tasks got];
      rewrite ?Hdb; cbn [db built called].
    + intros (Hnc & Hcalled & -> & Hb & Hres & Hgot).
      split_and!; try done.
      * intros k. rewrite elem_of_app, elem_of_cons, elem_of_nil.
        intros [H|[H|[]]]; [by eapply Hnc|done].
      * intros r. rewrite elem_of_app, elem_of_cons, elem_of_nil.
        intros [H|[[= ->]|[]]]; [by apply Hres|done].
    + intros (Hnc & Hcalled & Hb & Hni & Hgot). rewrite Hb.
      split_and!; try done.
      * intros k. rewrite elem_of_app, elem_of_cons, elem_of_nil.
        intros [H|[H|[]]]; [by eapply Hnc|done].
      * intros c m [[= -> ->]|H]%elem_of_cons; [done|by eapply Hcalled].
      * intros r. rewrite elem_of_app, elem_of_cons, elem_of_nil.
        intros [H|[[=]|[]]]. by destruct (Hni _ H).
      * intros r H. right. by apply Hgot.
  - intros [= <-]. cbn [module db_tasks got]. unfold getDatabase.
    intros (Hnc & Hcalled & Hdb). split_and!; [done|done|].
    destruct (db s) as [c|].
    + destruct Hdb as (-> & Hb & Hres & Hgot). split_and!; try done.
      intros r [->|H]%elem_of_cons; [by left|by apply Hgot].
    + destruct Hdb as (Hb & Hni & Hgot). split_and!; try done.
      intros r [->|H]%elem_of_cons; [done|by apply Hgot].
  - unfold pingDatabase, getDatabase.
    destruct (db s) as [c|] eqn:Hdb; intros [= <-]; cbn [module db_tasks got];
      cbn [db built called]; rewrite ?Hdb; intros (Hnc & Hcalled & Hrest).
    + split; [|split].
      * intros k. rewrite elem_of_app, elem_of_cons, elem_of_nil.
        intros [H|[H|[]]]; [by eapply Hnc|done].
      * destruct Hrest as (-> & _).
        intros c m [[= -> ->]|H]%elem_of_cons; [done|by eapply Hcalled].
      * destruct Hrest as (-> & Hb & Hres & Hgot).
        split_and!; try done.
        intros r. rewrite elem_of_app, elem_of_cons, elem_of_nil.
        intros [H|[[=]|[]]]. by apply Hres.
    + split; [|split; [done|]].
      * intros k. rewrite elem_of_app, elem_of_cons, elem_of_nil.
        intros [H|[H|[]]]; [by eapply Hnc|done].
      * destruct Hrest as (Hb & Hni & Hgot). split_and!; try done.
        intros k. rewrite elem_of_app, elem_of_cons, elem_of_nil.
        intros [H|[H|[]]]; [by eapply Hni|done].
  - destruct (ts !! tid) as [t|] eqn:Ht; [|done].
    apply list_elem_of_lookup_2 in Ht as Hin.
    destruct (db_task_resume t r s) as [[t' s1]|] eqn:Hr; [|done].
    intros [= <-] (Hnc & Hcalled & Hrest). cbn [module db_tasks got].
    destruct t as [k|k|k]; cbn [db_task_resume] in Hr;
      [| by destruct (Hnc _ Hin) |].
    + destruct (initDatabase_resume k r s) as [[k' s2]|] eqn:Hk; simplify_eq.
      destruct (db s) as [c|] eqn:Hdb; [|by destruct Hrest as (_ & Hni & _), (Hni _ Hin)].
      destruct Hrest as (-> & Hb & Hres & Hgot).
      assert (Hs : db s1 = Some 0%nat ∧ built s1 = 1%nat
                   ∧ (∀ c m, (c, m) ∈ called s1 → c = 0%nat)
                   ∧ ∀ r', k' = DbInitSettled (Resolved r') → r' = Some 0%nat).
      { destruct k as [| | |?], r as [e|]; cbn in Hk; unfold call_on_db in Hk;
          rewrite ?Hdb in Hk; simplify_eq; cbn [db built called];
          split_and!; try done; try (by intros r' ?; simplify_eq);
          (intros c m [[= -> ->]|H]%elem_of_cons; [done|by eapply Hcalled]). }
      destruct Hs as (Hdb1 & Hb1 & Hcalled1 & Hk'). rewrite Hdb1.
      split_and!; try done.
      * intros k0 [[=]|H]%elem_of_insert_inv. by eapply Hnc.
      * intros r' [[= <-]|H]%elem_of_insert_inv; [by apply Hk'|by apply Hres].
    + destruct (pingDatabase_resume k r s) as [[k' s2]|] eqn:Hk; simplify_eq.
      assert (s1 = s) as ->
        by (destruct k as [|?], r as [e|]; cbn in Hk; by simplify_eq).
      split; [|split; [done|]].
      * intros k0 [[=]|H]%elem_of_insert_inv. by eapply Hnc.
      * destruct (db s) as [c|].
        -- destruct Hrest as (-> & Hb & Hres & Hgot). split_and!; try done.
           intros r' [[=]|H]%elem_of_insert_inv. by apply Hres.
        -- destruct Hrest as (Hb & Hni & Hgot). split_and!; try done.
           intros k0 [[=]|H]%elem_of_insert_inv. by eapply Hni.
Qed.

Lemma db_run_single acts : ∀ σ σ',
  Call_closeDatabase ∉ acts →
  db_run acts σ = Some σ' → db_single σ → db_single σ'.
Proof.
  induction acts as [|a acts IH]; intros σ σ' Hnc; cbn.
  - by intros [= <-].
  - destruct (db_step a σ) as [σ1|] eqn:Hs; [|done].
    apply not_elem_of_cons in Hnc as [Ha Hnc].
    intros Hrun Hinv. eapply IH; [done|done|]. by eapply db_step_single.
Qed.

(** As long as [closeDatabase] is never called, the module constructs one
    client at most, whatever the interleaving and whether or not its
    handshake succeeds: every call is made on that client, every
    [getDatabase] returns it or throws, and every [initDatabase] that
    resolves resolves with it. *)
Theorem client_single_instance (acts : list DbAction) (σ : DbSystem) :
  Call_closeDatabase ∉ acts →
  db_run acts new_db_system = Some σ →
  (built (module σ) ≤ 1)%nat
  ∧ (∀ c m, (c, m) ∈ called (module σ) → c = 0%nat)
  ∧ (∀ r, r ∈ got σ → r = Resolved 0%nat ∨ r = Rejected not_initialized)
  ∧ (∀ r, TInitDatabase (DbInitSettled (Resolved r)) ∈ db_tasks σ →
       r = Some 0%nat).
Proof.
  intros Hnc Hrun.
  assert (Hinv : db_single σ).
  { eapply db_run_single; [done|done|]. unfold db_single. cbn.
    split_and!; try done; intros ?; try apply not_elem_of_nil.
    - by intros ? ?%elem_of_nil.
    - by intros ?%elem_of_nil. }
  destruct Hinv as (_ & Hcalled & Hrest).
  destruct (db (module σ)) as [c|].
  - destruct Hrest as (-> & Hb & Hres & Hgot). split_and!; try done. lia.
  - destruct Hrest as (Hb & Hni & Hgot). split_and!; try done; [lia| |].
    + intros r H. right. by apply Hgot.
    + intros r H. by destruct (Hni _ H).
Qed.

(** ** The further theorems at concrete inputs *)

Lemma acquire_exclusive_witness :
  ∃ σ σ',
    sys_run_held second_acquire_waiting (new_system unit 1 5000 (λ _, 0)) [] =
      Some (σ, [0%nat])
    ∧ sys_step (Resume 1 (PoolEvent Tick)) σ = Some σ'
    ∧ handed_out (Resume 1 (PoolEvent Tick)) σ' = Some 1%nat
    ∧ 1%nat ∉ [0%nat].
Proof.
  do 2 eexists. split; [vm_compute; reflexivity|].
  split; [vm_compute; reflexivity|]. split; [vm_compute; reflexivity|].
  eapply (acquire_exclusive (T:=unit) 1 5000 (λ _, 0) second_acquire_waiting
            _ _ (Resume 1 (PoolEvent Tick)));
    vm_compute; reflexivity.
Defined.

Lemma initialize_alone_witness :
  ∃ w' new,
    call initialize init_step (replicate 2 (Handshook handshake_ok)) fresh_world =
      Some (InitSettled (Resolved tt), w')
    ∧ pool (this w') = new ∧ length new = 2%nat ∧ Forall is_free new.
Proof.
  pose proof (initialize_alone fresh_world) as H. cbv zeta in H.
  destruct H as (_ & H). destruct (H eq_refl) as ((w' & new & Hc & Ht & Hl & Hf & _) & _).
  exists w', new. split; [exact Hc|]. split; [by rewrite Ht|]. by split.
Defined.

Lemma pool_rejections_witness :
  (∃ evs0 h cause,
     [Handshook handshake_ok; Handshook signin_refused] = evs0 ++ [Handshook h]
     ∧ (∀ c, createConnection c h = Rejected cause)
     ∧ initialize_failed (Foreign 0) = initialize_failed cause)
  ∧ (∃ evs0 cause,
       [Closed None; Closed (Some (Foreign 7))] = evs0 ++ [Closed (Some cause)]
       ∧ closeAll_failed (Foreign 7) = closeAll_failed cause).
Proof.
  split.
  - destruct (pool_rejections fresh_world) as (H & _ & _).
    eapply (H [Handshook handshake_ok; Handshook signin_refused]).
    vm_compute. reflexivity.
  - destruct (pool_rejections two_entries_world) as (_ & _ & H).
    eapply (H [Closed None; Closed (Some (Foreign 7))]).
    vm_compute. reflexivity.
Defined.

Lemma acquire_release_roundtrip_witness :
  fst (acquire_loop 9 sample_world) = AcqSettled (Resolved 1%nat)
  ∧ fst (getStats (snd (release 1%nat (snd (acquire_loop 9 sample_world))))) =
      fst (getStats sample_world).
Proof.
  pose proof (acquire_release_roundtrip 9 sample_world 1%nat
                {| client := 1%nat; inUse := false; lastUsed := 7 |}) as H.
  cbv zeta in H. destruct H as (H1 & _ & _ & _ & H2).
  - by apply (bool_decide_unpack _).
  - vm_compute. reflexivity.
  - apply (first_at_list_find is_free). reflexivity.
  - split; [exact H1|exact H2].
Defined.

Lemma getStats_acquire_release_witness :
  Stats.inUse (fst (getStats (snd (acquire_loop 9 sample_world)))) =
    Stats.inUse (fst (getStats sample_world)) + 1
  ∧ Stats.inUse (fst (getStats (snd (release 0%nat sample_world)))) =
      Stats.inUse (fst (getStats sample_world)) - 1.
Proof.
  destruct (getStats_acquire_release sample_world) as (Ha & Hr). split.
  - pose proof (Ha 9 1%nat {| client := 1%nat; inUse := false; lastUsed := 7 |}) as H.
    cbv zeta in H. destruct H as (_ & H & _).
    + vm_compute. reflexivity.
    + apply (first_at_list_find is_free). reflexivity.
    + exact H.
  - pose proof (Hr 0%nat 0%nat {| client := 0%nat; inUse := true; lastUsed := 5 |}) as H.
    cbv zeta in H. destruct H as (_ & H & _).
    + apply (first_at_list_find (is_client 0%nat)). reflexivity.
    + exact H.
Defined.

Lemma release_then_scan_witness :
  fst (acquire_loop 0 (snd (release 0%nat busy_world))) =
    AcqSettled (Resolved 0%nat).
Proof.
  destruct (release_then_scan 0 0%nat busy_world 0%nat
              {| client := 0%nat; inUse := true; lastUsed := 0 |}) as (H & _).
  - repeat constructor.
  - apply (first_at_list_find (is_client 0%nat)). reflexivity.
  - vm_compute. reflexivity.
  - exact H.
Defined.

Lemma acquire_after_closeAll_witness :
  ∃ w1 w2,
    call closeAll close_step (replicate 2 (Closed None)) two_entries_world =
      Some (CloseSettled (Resolved tt), w1)
    ∧ call acquire acq_step (replicate 2 (Handshook handshake_ok) ++ [Tick]) w1 =
        Some (AcqSettled (Resolved 2%nat), w2)
    ∧ length (pool (this w2)) = 2%nat.
Proof.
  pose proof (acquire_after_closeAll two_entries_world) as H. cbv zeta in H.
  destruct H as (w1 & w2 & H1 & H2 & _ & H3 & _).
  - vm_compute. reflexivity.
  - vm_compute. reflexivity.
  - exists w1, w2. split; [exact H1|]. split; [exact H2|exact H3].
Defined.

Lemma acquire_after_failed_closeAll_witness :
  ∃ w1,
    call closeAll close_step (replicate 1 (Closed None) ++ [Closed (Some (Foreign 0))])
      two_entries_world =
      Some (CloseSettled (Rejected (closeAll_failed (Foreign 0))), w1)
    ∧ fst (acquire w1) = AcqSettled (Resolved 0%nat)
    ∧ 0%nat ∈ closeCalls w1.
Proof.
  apply (acquire_after_failed_closeAll two_entries_world 1%nat (Foreign 0) 0%nat
           {| client := 0%nat; inUse := false; lastUsed := 0 |}).
  - reflexivity.
  - apply (first_at_list_find is_free). reflexivity.
  - lia.
  - cbn. lia.
  - vm_compute. reflexivity.
Defined.

Lemma pool_clients_distinct_witness :
  ∃ σ, sys_run two_first_acquires (new_system unit 1 5000 (λ _, 0)) = Some σ
       ∧ length (pool (this (world σ))) = 2%nat
       ∧ NoDup (client <$> pool (this (world σ))).
Proof.
  eexists. split; [vm_compute; reflexivity|]. split; [vm_compute; reflexivity|].
  eapply (pool_clients_distinct (T:=unit) 1 5000 (λ _, 0) two_first_acquires).
  vm_compute. reflexivity.
Defined.

Lemma withConnection_restores_witness :
  inUse <$> pool (this (snd (release 1%nat (snd (acquire sample_world))))) =
    inUse <$> pool (this sample_world).
Proof.
  destruct (withConnection_restores (T:=nat)
              [PoolEvent Tick; FnSettled (Rejected (Foreign 3))] sample_world
              (Rejected (Foreign 3))
              (snd (release 1%nat (snd (acquire sample_world)))))
    as (_ & H & _).
  - reflexivity.
  - by apply (bool_decide_unpack _).
  - vm_compute. reflexivity.
  - exact H.
Defined.

Lemma initDatabase_sets_db_witness :
  ∃ s',
    call_db initDatabase initDatabase_resume [None; Some (Foreign 1)] new_module =
      Some (DbInitSettled (Rejected (initDatabase_failed (Foreign 1))), s')
    ∧ getDatabase s' = Resolved 0%nat
    ∧ initDatabase s' = (DbInitSettled (Resolved (Some 0%nat)), s').
Proof.
  eexists. split; [vm_compute; reflexivity|].
  pose proof (initDatabase_sets_db new_module [None; Some (Foreign 1)] _ _
                eq_refl eq_refl) as H.
  cbv zeta in H. destruct H as (_ & _ & H1 & H2 & _). split; [exact H1|exact H2].
Defined.

Lemma closeDatabase_spec_witness :
  ∃ s1,
    call_db closeDatabase closeDatabase_resume [None] connected_module =
      Some (DbCloseSettled (Resolved tt), s1)
    ∧ getDatabase s1 = Rejected not_initialized
    ∧ db (snd (initDatabase s1)) = Some 1%nat.
Proof.
  destruct (closeDatabase_spec connected_module) as (_ & H & _).
  destruct (H 0%nat eq_refl) as (s1 & Hc & _ & _ & Hg & _ & _ & Hd & _).
  exists s1. split; [exact Hc|]. split; [exact Hg|exact Hd].
Defined.

Lemma pingDatabase_spec_witness :
  ∃ b, Resolved true = Resolved b
       ∧ (b = true ↔ is_Some (db connected_module) ∧ [None] = [@None Err]).
Proof.
  eapply (pingDatabase_spec connected_module [None] (Resolved true)).
  vm_compute. reflexivity.
Defined.

Lemma initDatabase_during_close_witness :
  ∃ σ',
    db_run [Call_closeDatabase; Resume_db 1 None; Resume_db 0 None]
      signing_in_system = Some σ'
    ∧ db_tasks σ' !! 0%nat =
        Some (TInitDatabase
                (DbInitSettled (Rejected (initDatabase_failed null_dereference)))).
Proof.
  destruct (initDatabase_during_close signing_in_system 0%nat DbSigningIn 0%nat)
    as (σ' & Hrun & _ & _ & Ht).
  - reflexivity.
  - discriminate.
  - reflexivity.
  - exists σ'. split; [exact Hrun|exact Ht].
Defined.

Lemma client_constructions_witness :
  ∃ σ, db_run reconnect new_db_system = Some σ
       ∧ built (module σ) = 2%nat
       ∧ db (module σ) = Some 1%nat
       ∧ (∀ c, db (module σ) = Some c → built (module σ) = S c).
Proof.
  eexists. split; [vm_compute; reflexivity|]. split; [reflexivity|].
  split; [reflexivity|].
  refine (proj1 (client_constructions reconnect _ _)).
  vm_compute. reflexivity.
Defined.

Lemma client_single_instance_witness :
  ∃ σ, db_run failed_connect new_db_system = Some σ
       ∧ length (got σ) = 3%nat
       ∧ ∀ r, r ∈ got σ → r = Resolved 0%nat ∨ r = Rejected not_initialized.
Proof.
  eexists. split; [vm_compute; reflexivity|]. split; [reflexivity|].
  eapply (client_single_instance failed_connect).
  - intros H. unfold failed_connect in H.
    repeat (apply elem_of_cons in H as [H|H]; [discriminate|]).
    by apply elem_of_nil in H.
  - vm_compute. reflexivity.
Defined.
